(** * Two-tier cache and fan-out of the mine-safety RAG service

    Shallow embedding of [src/main1.py] (the L1 dictionary cache, the L2
    SQLite cache, [cached_ask], the [/updates] fan-out) and of the RAG
    pipeline [ask] of [src/agent.py].

    Python [str] values are sequences of Unicode code points; module-level
    globals ([lru_cache_store], the SQLite connection) are threaded as
    explicit state; exceptions are the [Raise] branch of [Result] and a
    call that does not return is its [Never] branch; the external
    capabilities (vector index, generative model, SQLite medium, HTTP
    fetch) are oracles of an environment that see the whole effect trace
    so far, so their answers may differ from one call to the next. *)

From Stdlib Require Import ZArith String Ascii.
From stdpp Require Import gmap list.

Local Open Scope nat_scope.

(** ** Python strings *)

(** A [str] is a list of code points. *)
Abbreviation str := (list N).

(** An ASCII literal as a [str]. *)
Definition py (s : string) : str :=
  List.map N_of_ascii (list_ascii_of_string s).

(** [str.isspace] on one code point (CPython's [_PyUnicode_IsWhitespace]). *)
Definition isspace (c : N) : bool :=
  ((9 <=? c) && (c <=? 13) || (28 <=? c) && (c <=? 32)
   || (c =? 133) || (c =? 160) || (c =? 5760)
   || (8192 <=? c) && (c <=? 8202)
   || (c =? 8232) || (c =? 8233) || (c =? 8239) || (c =? 8287)
   || (c =? 12288))%N.

Fixpoint lstrip (s : str) : str :=
  match s with
  | c :: s' => if isspace c then lstrip s' else s
  | [] => []
  end.

Definition rstrip (s : str) : str := rev (lstrip (rev s)).

(** [s.strip()] *)
Definition strip (s : str) : str := rstrip (lstrip s).

(** Truthiness of a [str]: only the empty string is falsy. *)
Definition truthy (s : str) : bool :=
  match s with [] => false | _ => true end.

(** [sep.join(parts)] *)
Fixpoint join (sep : str) (parts : list str) : str :=
  match parts with
  | [] => []
  | [p] => p
  | p :: rest => p ++ sep ++ join sep rest
  end.

(** ** Exceptions and results *)

Inductive ExnKind :=
  | RetrievalUnavailable   (* the embedding model or the FAISS index raised *)
  | GenerationUnavailable  (* the generative model call raised *)
  | StorageUnavailable     (* sqlite3.Error *)
  | FetchFailed            (* requests.get raised *)
  | IndexError
  | StopIteration
  | RuntimeError.

(** An exception object: its class and [str(e)]. *)
Record exn := Exn { exn_kind : ExnKind; exn_msg : str }.

(** How a call ends: with a value, with an exception, or not at all. *)
Inductive Result (A : Type) :=
  | Ok (a : A)
  | Raise (e : exn)
  | Never.
Arguments Ok {A} a.
Arguments Raise {A} e.
Arguments Never {A}.

(** ** The L1 in-memory cache: [lru_cache_store], a Python [dict] *)

Module L1.

(** A [dict] keeps its keys in insertion order and holds each key once:
    an association list whose order is the iteration order. *)
Definition store := list (str * str).

(** [d.get(k)] *)
Fixpoint dict_get (d : store) (k : str) : option str :=
  match d with
  | [] => None
  | (k', v) :: d' => if decide (k' = k) then Some v else dict_get d' k
  end.

(** [d[k] = v]: a present key keeps its position, a new key goes last. *)
Fixpoint dict_set (d : store) (k v : str) : store :=
  match d with
  | [] => [(k, v)]
  | (k', v') :: d' =>
      if decide (k' = k) then (k, v) :: d' else (k', v') :: dict_set d' k v
  end.

(** [d.pop(k)] for a present key. *)
Fixpoint dict_pop (d : store) (k : str) : store :=
  match d with
  | [] => []
  | (k', v') :: d' => if decide (k' = k) then d' else (k', v') :: dict_pop d' k
  end.

(** [next(iter(d))]: the first key, [StopIteration] on an empty dict. *)
Definition first_key (d : store) : Result str :=
  match d with
  | [] => Raise (Exn StopIteration [])
  | (k, _) :: _ => Ok k
  end.

Definition keys (d : store) : list str := d.*1.

Definition get_from_l1 (d : store) (query : str) : option str :=
  dict_get d query.

(** [set_to_l1], with the module constant [L1_CACHE_SIZE] as [cap]. *)
Definition set_to_l1 (cap : nat) (d : store) (query response : str)
  : Result store :=
  if cap <=? length d then
    match first_key d with
    | Ok oldest_key => Ok (dict_set (dict_pop d oldest_key) query response)
    | Raise e => Raise e
    | Never => Never
    end
  else Ok (dict_set d query response).

(** What is left after the eviction test of [set_to_l1]: the dict without
    its first entry when it has [cap] entries or more. *)
Definition evicted (cap : nat) (d : store) : store :=
  if cap <=? length d then tail d else d.

(** The operations of the L1 contract, for stating the size invariant. *)
Inductive op := Get (k : str) | Put (k v : str).

(** One operation; an operation that raises leaves the dict as it was. *)
Definition apply_op (cap : nat) (d : store) (o : op) : store :=
  match o with
  | Get k => d
  | Put k v => match set_to_l1 cap d k v with Ok d' => d' | _ => d end
  end.

Definition run_ops (cap : nat) (d : store) (ops : list op) : store :=
  foldl (apply_op cap) d ops.

(** [put] of every key of [ks] in turn, each with the value [val k]. *)
Definition put_all (cap : nat) (val : str -> str) (d : store) (ks : list str)
  : store :=
  run_ops cap d (List.map (fun k => Put k (val k)) ks).

End L1.

Definition L1_CACHE_SIZE : nat := 100.

(** ** Effects: the world, the environment and the monad *)

(** Every effect the program performs on a cache tier or on an external
    capability, in the order performed. *)
Inductive Event :=
  | EvL1Get (query : str)
  | EvL1Set (query response : str)
  | EvSelect (query : str)            (* cursor.execute("SELECT ...") *)
  | EvUpsert (query response : str)   (* cursor.execute("INSERT OR REPLACE ...") *)
  | EvCommit                          (* conn.commit() *)
  | EvSearch (query : str)            (* embed + index.search *)
  | EvGenerate (prompt : str)         (* generate_content(prompt) *)
  | EvFetch (link : str).             (* requests.get(link) *)

(** The process state: both tiers and the trace of effects so far.  [l2] is
    the table [cache] as the one shared connection sees it, with the rows
    of its open transaction; [durable] is the table as last committed. *)
Record World := mkWorld {
  l1 : L1.store;
  l2 : gmap str str;
  durable : gmap str str;
  trace : list Event;
}.

(** The external collaborators.  Each oracle receives the trace so far. *)
Record Env := mkEnv {
  (** [index.search(embed(query), k)]: the row [indices[0]] *)
  faiss_search : list Event -> str -> Result (list Z);
  (** the unpickled [documents] list *)
  documents : list str;
  (** [GenerativeModel(...).generate_content(prompt).text] *)
  generate_content : list Event -> str -> Result str;
  (** whether the SQLite call about to be made raises *)
  db_fault : list Event -> Event -> option exn;
  (** whether SQLite, failing that call, rolls the open transaction back *)
  db_rollback : list Event -> Event -> bool;
  (** [requests.get(link, timeout=10)] in its worker thread: the text of
      every [<p>] of the response, or the exception raised *)
  http_get : list Event -> str -> Result (list str);
}.

(** State and exception monad over [World]. *)
Definition M (A : Type) : Type := World -> Result A * World.

Definition ret {A} (a : A) : M A := fun w => (Ok a, w).

Definition raise {A} (e : exn) : M A := fun w => (Raise e, w).

Definition bind {A B} (m : M A) (k : A -> M B) : M B :=
  fun w => match m w with
           | (Ok a, w') => k a w'
           | (Raise e, w') => (Raise e, w')
           | (Never, w') => (Never, w')
           end.

Notation "'let*' x := m 'in' k" := (bind m (fun x => k))
  (at level 10, x pattern, m at level 100, k at level 200).
Notation "m ;; k" := (bind m (fun _ => k))
  (at level 100, k at level 200, right associativity).

Definition lift {A} (r : Result A) : M A := fun w => (r, w).

Definition emit (ev : Event) : M unit :=
  fun w => (Ok tt, mkWorld (l1 w) (l2 w) (durable w) (trace w ++ [ev])).

Definition get_trace : M (list Event) := fun w => (Ok (trace w), w).

(** Python's truthiness of an [Optional[str]]: [None] and [""] are falsy. *)
Definition truthy_opt (r : option str) : bool :=
  match r with Some s => truthy s | None => false end.

(** [l[i]] for a Python int [i]: negative indices count from the end. *)
Definition py_index {A} (l : list A) (i : Z) : Result A :=
  let n := Z.of_nat (length l) in
  let j := (if i <? 0 then i + n else i)%Z in
  if ((j <? 0) || (n <=? j))%Z then
    Raise (Exn IndexError (py "list index out of range"))
  else match l !! Z.to_nat j with
       | Some a => Ok a
       | None => Raise (Exn IndexError (py "list index out of range"))
       end.

Fixpoint mapM {A B} (f : A -> Result B) (l : list A) : Result (list B) :=
  match l with
  | [] => Ok []
  | a :: l' =>
      match f a with
      | Ok b => match mapM f l' with
                | Ok bs => Ok (b :: bs)
                | Raise e => Raise e
                | Never => Never
                end
      | Raise e => Raise e
      | Never => Never
      end
  end.

Definition nl : str := [10%N].

Section Program.

Variable env : Env.

(** *** L1, with the trace *)

Definition get_from_l1 (query : str) : M (option str) :=
  emit (EvL1Get query);;
  fun w => (Ok (L1.get_from_l1 (l1 w) query), w).

Definition set_to_l1 (query response : str) : M unit :=
  fun w =>
    match L1.set_to_l1 L1_CACHE_SIZE (l1 w) query response with
    | Ok d =>
        (Ok tt, mkWorld d (l2 w) (durable w) (trace w ++ [EvL1Set query response]))
    | Raise e => (Raise e, w)
    | Never => (Never, w)
    end.

(** *** L2: the SQLite table behind one shared connection *)

(** The connection runs in sqlite3's default mode: an INSERT opens a
    transaction when none is open, and its rows stay uncommitted, seen by
    this connection only, until a [commit] succeeds. *)
Definition is_write (stmt : Event) : bool :=
  match stmt with
  | EvUpsert _ _ | EvCommit => true
  | _ => false
  end.

(** A call into SQLite: it raises when the medium says so.  A write that
    fails may take the whole open transaction with it (SQLite's automatic
    rollback, as on a full disk): the connection then sees the table as
    last committed. *)
Definition sqlite_call (stmt : Event) : M unit :=
  fun w =>
    match db_fault env (trace w) stmt with
    | Some e =>
        (Raise e,
         mkWorld (l1 w)
                 (if is_write stmt && db_rollback env (trace w) stmt
                  then durable w else l2 w)
                 (durable w) (trace w ++ [stmt]))
    | None => (Ok tt, mkWorld (l1 w) (l2 w) (durable w) (trace w ++ [stmt]))
    end.

Definition get_from_l2 (query : str) : M (option str) :=
  sqlite_call (EvSelect query);;
  fun w => (Ok (l2 w !! query), w).

Definition set_to_l2 (query response : str) : M unit :=
  sqlite_call (EvUpsert query response);;
  (fun w => (Ok tt, mkWorld (l1 w) (<[query := response]> (l2 w)) (durable w)
                            (trace w)));;
  sqlite_call EvCommit;;
  (fun w => (Ok tt, mkWorld (l1 w) (l2 w) (l2 w) (trace w))).

(** *** The RAG pipeline of [agent.py] *)

(** The list [hits] of [search_faiss], given the trace at the call. *)
Definition hits (t : list Event) (query : str) : Result (list str) :=
  match faiss_search env t query with
  | Ok indices =>
      mapM (py_index (documents env))
           (List.filter (fun i => negb (i =? -1)%Z) indices)
  | Raise e => Raise e
  | Never => Never
  end.

Definition search_faiss (query : str) : M (list str) :=
  let* t := get_trace in
  emit (EvSearch query);;
  lift (hits t query).

(** The prompt [generate_answer] builds. *)
Definition rag_prompt (query : str) (context_docs : list str) : str :=
  let context := join (nl ++ nl) context_docs in
  nl ++ py "You are an expert mining assistant." ++ nl ++ nl
  ++ py "User question:" ++ nl ++ query ++ nl ++ nl
  ++ py "Relevant mining documents:" ++ nl ++ context ++ nl ++ nl
  ++ py "Answer concisely, factually, and directly." ++ nl.

Definition generate_answer (query : str) (context_docs : list str) : M str :=
  let prompt := rag_prompt query context_docs in
  let* t := get_trace in
  emit (EvGenerate prompt);;
  lift (generate_content env t prompt).

Definition ask (query : str) : M str :=
  let* context_docs := search_faiss query in
  generate_answer query context_docs.

(** *** [cached_ask], split at its one suspension point *)

(** A [StopIteration] that would leave a coroutine body leaves it as a
    [RuntimeError] (PEP 479). *)
Definition pep479 (e : exn) : exn :=
  match e with
  | Exn StopIteration _ =>
      Exn RuntimeError (py "coroutine raised StopIteration")
  | _ => e
  end.

Definition coroutine {A} (body : M A) : M A :=
  fun w =>
    match body w with
    | (Raise e, w') => (Raise (pep479 e), w')
    | r => r
    end.

(** What [await asyncio.to_thread(f)] hands the coroutine when [f] ends
    in its worker thread with [r].  A value or an exception is copied onto
    the awaited future.  asyncio refuses to set a [StopIteration] on a
    future (the copy fails with a [TypeError] inside a callback of the
    event loop, which only logs it): the future is then never resolved and
    the coroutine is never resumed. *)
Definition awaited {A} (r : Result A) : Result A :=
  match r with
  | Raise (Exn StopIteration _) => Never
  | _ => r
  end.

(** [await asyncio.to_thread(call)] when nothing else runs meanwhile. *)
Definition to_thread {A} (call : M A) : M A :=
  fun w => match call w with (r, w') => (awaited r, w') end.

(** The world once both lookups of [cached_ask] have been made. *)
Definition after_miss (query : str) (w : World) : World :=
  mkWorld (l1 w) (l2 w) (durable w) (trace w ++ [EvL1Get query; EvSelect query]).

(** Up to [await asyncio.to_thread(ask, query)]: [Some r] when a tier
    answered and the coroutine returned [r], [None] when both missed. *)
Definition cached_ask_begin (query : str) : M (option str) :=
  coroutine (
    let* result := get_from_l1 query in
    if truthy_opt result then ret result
    else
      let* result := get_from_l2 query in
      if truthy_opt result then
        match result with
        | Some r => set_to_l1 query r;; ret (Some r)
        | None => ret None
        end
      else ret None).

(** From the value the awaited thread delivered to the [return]. *)
Definition cached_ask_resume (query result : str) : M str :=
  coroutine (
    let result_str := strip result in
    set_to_l2 query result_str;;
    set_to_l1 query result_str;;
    ret result_str).

(** The whole coroutine when nothing else runs during the [await]. *)
Definition cached_ask (query : str) : M str :=
  let* hit := cached_ask_begin query in
  match hit with
  | Some r => ret r
  | None =>
      let* result := to_thread (ask query) in
      cached_ask_resume query result
  end.

End Program.

(** ** Concurrency: coroutines on one event loop, calls in worker threads

    A coroutine runs without interruption from one [await] to the next, and
    a call handed to [asyncio.to_thread] runs in a worker thread that
    touches the capabilities only.  One step of the system advances one
    task: a coroutine segment on the event loop, or one capability call of
    its worker thread.  A schedule is the list of the tasks stepped. *)

(** The worker thread that runs [ask(query)]. *)
Inductive AskThread :=
  | ThQueued                       (* submitted by asyncio.to_thread *)
  | ThSearched (docs : list str)   (* search_faiss has returned *)
  | ThFinished (r : Result str).   (* how ask has ended, or that it never will *)

(** A [cached_ask(query)] coroutine. *)
Inductive AskCo :=
  | AskStart (query : str)
  | AskAwait (query : str) (th : AskThread)
  | AskDone (r : Result str).

(** The worker thread that runs [requests.get(link, timeout=10)]. *)
Inductive FetchThread :=
  | FQueued
  | FFinished (r : Result (list str)).

(** The dict [analyze_update] returns. *)
Record Output := mkOutput {
  out_title : str;
  out_link : str;
  out_published : str;
  danger_analysis : str;
}.

(** An [analyze_update(item)] coroutine; [item] is a feed entry, a dict. *)
Inductive UpdCo :=
  | UpdStart (item : gmap str str)
  | UpdFetch (item : gmap str str) (th : FetchThread)
  | UpdAsk (item : gmap str str) (c : AskCo)
  | UpdDone (out : Output).

Inductive Task :=
  | TAsk (c : AskCo)
  | TUpd (u : UpdCo).

Record Sys := mkSys {
  world : World;
  tasks : list Task;
}.

(** [item.get(key, "")] *)
Definition item_get (item : gmap str str) (key : string) : str :=
  default [] (item !! py key).

(** The [content] of an update from what the first [try] got: the
    paragraphs of the page, or an exception, which [except Exception]
    catches (with a fetch that never returns the coroutine does not get
    this far). *)
Definition content_of (fetched : Result (list str)) : str :=
  match fetched with
  | Ok paragraphs =>
      match paragraphs with
      | [] => py "(No text found.)"
      | _ => join (py " ") (take 5 paragraphs)
      end
  | Raise _ | Never => py "(Could not fetch full article text.)"
  end.

Definition update_prompt (item : gmap str str) (content : str) : str :=
  py "You are a mining safety officer. Analyze the following DGMS update "
  ++ py "and classify the risk level (High, Medium, Low, or None), and describe "
  ++ py "the hazard type." ++ nl ++ nl
  ++ py "Title: " ++ item_get item "title" ++ nl
  ++ py "Published: " ++ item_get item "published" ++ nl
  ++ py "Link: " ++ item_get item "link" ++ nl
  ++ py "Content: " ++ content.

(** The text of [f"⚠️ Error: {e}"]: U+26A0 U+FE0F, then the message. *)
Definition error_text (e : exn) : str :=
  [9888%N; 65039%N] ++ py " Error: " ++ exn_msg e.

(** The second [try] of [analyze_update] and its [return], [r] being how
    [cached_ask] ended (a coroutine that never resumes returns nothing). *)
Definition update_output (item : gmap str str) (r : Result str) : Output :=
  mkOutput (item_get item "title") (item_get item "link")
           (item_get item "published")
           (match r with
            | Ok output => output
            | Raise e => error_text e
            | Never => []
            end).

Section Scheduler.

Variable env : Env.

(** One step of a [cached_ask] coroutine or of its worker thread; [None]
    when the coroutine has returned and when it can never go on: its
    thread has ended without resolving the awaited future. *)
Definition ask_co_step (c : AskCo) (w : World) : option (AskCo * World) :=
  match c with
  | AskStart query =>
      match cached_ask_begin env query w with
      | (Ok (Some r), w') => Some (AskDone (Ok r), w')
      | (Ok None, w') => Some (AskAwait query ThQueued, w')
      | (Raise e, w') => Some (AskDone (Raise e), w')
      | (Never, _) => None
      end
  | AskAwait query ThQueued =>
      match search_faiss env query w with
      | (Ok docs, w') => Some (AskAwait query (ThSearched docs), w')
      | (Raise e, w') => Some (AskAwait query (ThFinished (Raise e)), w')
      | (Never, w') => Some (AskAwait query (ThFinished Never), w')
      end
  | AskAwait query (ThSearched docs) =>
      match generate_answer env query docs w with
      | (r, w') => Some (AskAwait query (ThFinished r), w')
      end
  | AskAwait query (ThFinished r) =>
      match awaited r with
      | Ok result =>
          match cached_ask_resume env query result w with
          | (Never, _) => None
          | (r', w') => Some (AskDone r', w')
          end
      | Raise e => Some (AskDone (Raise e), w)
      | Never => None
      end
  | AskDone _ => None
  end.

(** [analyze_update] goes on from [await cached_ask(prompt)]. *)
Definition upd_continue (item : gmap str str) (cw : AskCo * World)
  : UpdCo * World :=
  match cw with
  | (AskDone r, w') => (UpdDone (update_output item r), w')
  | (c', w') => (UpdAsk item c', w')
  end.

(** One step of an [analyze_update] coroutine or of a worker thread. *)
Definition upd_co_step (u : UpdCo) (w : World) : option (UpdCo * World) :=
  match u with
  | UpdStart item => Some (UpdFetch item FQueued, w)
  | UpdFetch item FQueued =>
      let link := item_get item "link" in
      Some (UpdFetch item (FFinished (http_get env (trace w) link)),
            mkWorld (l1 w) (l2 w) (durable w) (trace w ++ [EvFetch link]))
  | UpdFetch item (FFinished fetched) =>
      match awaited fetched with
      | Never => None
      | delivered =>
          let prompt := update_prompt item (content_of delivered) in
          option_map (upd_continue item) (ask_co_step (AskStart prompt) w)
      end
  | UpdAsk item c => option_map (upd_continue item) (ask_co_step c w)
  | UpdDone _ => None
  end.

Definition task_step (t : Task) (w : World) : option (Task * World) :=
  match t with
  | TAsk c => option_map (fun cw => (TAsk cw.1, cw.2)) (ask_co_step c w)
  | TUpd u => option_map (fun uw => (TUpd uw.1, uw.2)) (upd_co_step u w)
  end.

(** Step task [i]; [None] when there is no such task, when it has finished
    and when it waits for a future that is never resolved. *)
Definition step (i : nat) (st : Sys) : option Sys :=
  match tasks st !! i with
  | None => None
  | Some t =>
      match task_step t (world st) with
      | None => None
      | Some (t', w') => Some (mkSys w' (<[i := t']> (tasks st)))
      end
  end.

Fixpoint run (sched : list nat) (st : Sys) : option Sys :=
  match sched with
  | [] => Some st
  | i :: sched' =>
      match step i st with
      | None => None
      | Some st' => run sched' st'
      end
  end.

Definition task_done (t : Task) : bool :=
  match t with
  | TAsk (AskDone _) | TUpd (UpdDone _) => true
  | _ => false
  end.

Definition all_done (st : Sys) : bool := forallb task_done (tasks st).

End Scheduler.

(** A [cached_ask] coroutine stepped on its own, at most [fuel] times. *)
Fixpoint ask_co_run (env : Env) (fuel : nat) (c : AskCo) (w : World)
  : AskCo * World :=
  match fuel with
  | 0 => (c, w)
  | S fuel' =>
      match ask_co_step env c w with
      | Some (c', w') => ask_co_run env fuel' c' w'
      | None => (c, w)
      end
  end.

(** [cached_ask] calls made together, one task per query. *)
Definition ask_all (w : World) (queries : list str) : Sys :=
  mkSys w (List.map (fun q => TAsk (AskStart q)) queries).

(** How many pipeline executions for [key] are outstanding. *)
Definition awaits_key (key : str) (t : Task) : bool :=
  match t with
  | TAsk (AskAwait q _) | TUpd (UpdAsk _ (AskAwait q _)) => bool_decide (q = key)
  | _ => false
  end.

Definition in_flight (key : str) (st : Sys) : nat :=
  length (List.filter (awaits_key key) (tasks st)).

(** What a finished [cached_ask] task returned. *)
Definition returned (st : Sys) (i : nat) : option (Result str) :=
  match tasks st !! i with
  | Some (TAsk (AskDone r)) => Some r
  | _ => None
  end.

(** The [/updates] handler: [asyncio.gather] over [analyze_update(u)]. *)
Definition gather_start (w : World) (updates : list (gmap str str)) : Sys :=
  mkSys w (List.map (fun u => TUpd (UpdStart u)) updates).

(** What [await asyncio.gather(...)] delivers once every coroutine has
    returned: their values in the order of the arguments. *)
Fixpoint gather_result (ts : list Task) : option (list Output) :=
  match ts with
  | [] => Some []
  | TUpd (UpdDone out) :: ts' => option_map (cons out) (gather_result ts')
  | _ => None
  end.

(** Invocations of the two capabilities recorded in a trace. *)
Definition is_search (ev : Event) : bool :=
  match ev with EvSearch _ => true | _ => false end.

Definition is_generate (ev : Event) : bool :=
  match ev with EvGenerate _ => true | _ => false end.

Definition is_pipeline (ev : Event) : bool := is_search ev || is_generate ev.

Definition count (p : Event -> bool) (t : list Event) : nat :=
  length (List.filter p t).

(** The states of a task made by [gather_start] for the feed entry [item]:
    an [analyze_update] coroutine of that entry, awaiting, if it has got as
    far as [cached_ask], the worker thread of its pipeline run. *)
Definition upd_wf (item : gmap str str) (u : UpdCo) : Prop :=
  match u with
  | UpdStart i | UpdFetch i _ => i = item
  | UpdAsk i c => i = item ∧ ∃ prompt th, c = AskAwait prompt th
  | UpdDone out => ∃ r, out = update_output item r
  end.

Definition upd_for (item : gmap str str) (t : Task) : Prop :=
  match t with
  | TUpd u => upd_wf item u
  | TAsk _ => False
  end.

(** A bound on the steps a task has left. *)
Definition ask_fuel (c : AskCo) : nat :=
  match c with
  | AskStart _ => 4
  | AskAwait _ ThQueued => 3
  | AskAwait _ (ThSearched _) => 2
  | AskAwait _ (ThFinished _) => 1
  | AskDone _ => 0
  end.

Definition upd_fuel (u : UpdCo) : nat :=
  match u with
  | UpdStart _ => 7
  | UpdFetch _ FQueued => 6
  | UpdFetch _ (FFinished _) => 5
  | UpdAsk _ c => ask_fuel c
  | UpdDone _ => 0
  end.

Definition task_fuel (t : Task) : nat :=
  match t with
  | TAsk c => ask_fuel c
  | TUpd u => upd_fuel u
  end.

(** A worker thread that has not ended, or has ended in a way that
    resolves the future awaited for it. *)
Definition thread_live (th : AskThread) : Prop :=
  match th with
  | ThFinished r => awaited r ≠ Never
  | _ => True
  end.

Definition ask_live (c : AskCo) : Prop :=
  match c with
  | AskAwait _ th => thread_live th
  | _ => True
  end.

Definition upd_live (u : UpdCo) : Prop :=
  match u with
  | UpdFetch _ (FFinished fetched) => awaited fetched ≠ Never
  | UpdAsk _ c => ask_live c
  | _ => True
  end.

Definition task_live (t : Task) : Prop :=
  match t with
  | TAsk c => ask_live c
  | TUpd u => upd_live u
  end.

(** Every call of a capability in a worker thread resolves the future
    awaited for it: the call returns, or raises something other than
    [StopIteration]. *)
Definition responsive (env : Env) : Prop :=
  (∀ t q, awaited (faiss_search env t q) ≠ Never)
  ∧ (∀ t p, awaited (generate_content env t p) ≠ Never)
  ∧ (∀ t l, awaited (http_get env t l) ≠ Never).

(** The capabilities answer by their arguments alone, whatever has
    happened before (as stubbed capabilities do). *)
Definition history_free (env : Env) : Prop :=
  (∀ t q, faiss_search env t q = faiss_search env [] q)
  ∧ (∀ t p, generate_content env t p = generate_content env [] p)
  ∧ (∀ t l, http_get env t l = http_get env [] l).

(** How [ask(query)] ends with such capabilities. *)
Definition pipeline (env : Env) (query : str) : Result str :=
  match hits env [] query with
  | Ok docs => generate_content env [] (rag_prompt query docs)
  | Raise e => Raise e
  | Never => Never
  end.

(** How [cached_ask(query)] then ends for a key that no tier holds, when
    the store takes the write. *)
Definition resolution (env : Env) (query : str) : Result str :=
  match awaited (pipeline env query) with
  | Ok result => Ok (strip result)
  | other => other
  end.

(** The prompt [analyze_update(item)] builds and the dict it returns. *)
Definition prompt_of (env : Env) (item : gmap str str) : str :=
  update_prompt item
    (content_of (awaited (http_get env [] (item_get item "link")))).

Definition expected (env : Env) (item : gmap str str) : Output :=
  update_output item (resolution env (prompt_of env item)).

(** Every non-empty value a tier holds for a key is the one [cached_ask]
    computes for that key (as in empty tiers, and in tiers the program
    itself has filled). *)
Definition coherent (env : Env) (w : World) : Prop :=
  (∀ k v, (k, v) ∈ l1 w → v ≠ [] → resolution env k = Ok v)
  ∧ (∀ k v, l2 w !! k = Some v → v ≠ [] → resolution env k = Ok v).

(** The states of the task of [item] when the capabilities answer by
    their arguments alone. *)
Definition thread_on_course (env : Env) (prompt : str) (th : AskThread)
  : Prop :=
  match th with
  | ThQueued => True
  | ThSearched docs => hits env [] prompt = Ok docs
  | ThFinished r => r = pipeline env prompt
  end.

Definition upd_on_course (env : Env) (item : gmap str str) (t : Task) : Prop :=
  match t with
  | TUpd (UpdStart i) | TUpd (UpdFetch i FQueued) => i = item
  | TUpd (UpdFetch i (FFinished fetched)) =>
      i = item ∧ fetched = http_get env [] (item_get item "link")
  | TUpd (UpdAsk i c) =>
      i = item
      ∧ ∃ th, c = AskAwait (prompt_of env item) th
              ∧ thread_on_course env (prompt_of env item) th
  | TUpd (UpdDone out) => out = expected env item
  | TAsk _ => False
  end.

(** ** Concrete environments and worlds *)

Module Demo.

Definition q : str := py "gas leak risk".

(** Nothing cached, nothing done yet. *)
Definition w_empty : World := mkWorld [] ∅ ∅ [].

Definition no_fault (t : list Event) (stmt : Event) : option exn := None.

(** The scenario of the specification: two documents retrieved, the
    model answers ["Risk: High"]. *)
Definition env_ok : Env :=
  mkEnv (fun _ _ => Ok [0%Z; 1%Z; (-1)%Z; (-1)%Z; (-1)%Z])
        [py "doc A"; py "doc B"]
        (fun _ _ => Ok (py "Risk: High"))
        no_fault (fun _ _ => false)
        (fun _ _ => Ok [py "Circular text."]).

(** The model answers with blanks only. *)
Definition env_blank : Env :=
  mkEnv (faiss_search env_ok) (documents env_ok)
        (fun _ _ => Ok (py "  "))
        no_fault (db_rollback env_ok) (http_get env_ok).

(** The model is unreachable. *)
Definition env_gen_down : Env :=
  mkEnv (faiss_search env_ok) (documents env_ok)
        (fun _ _ => Raise (Exn GenerationUnavailable (py "model unreachable")))
        no_fault (db_rollback env_ok) (http_get env_ok).

(** Every SELECT fails; the model would answer. *)
Definition env_db_down : Env :=
  mkEnv (faiss_search env_ok) (documents env_ok) (generate_content env_ok)
        (fun _ stmt =>
           match stmt with
           | EvSelect _ =>
               Some (Exn StorageUnavailable (py "unable to open database file"))
           | _ => None
           end)
        (db_rollback env_ok) (http_get env_ok).

(** The model gives its n-th answer the number n. *)
Definition env_counting : Env :=
  mkEnv (faiss_search env_ok) (documents env_ok)
        (fun t _ => Ok (py "answer " ++ [N.of_nat (48 + count is_generate t)]))
        no_fault (db_rollback env_ok) (http_get env_ok).

(** L1 holds an empty value for [q] while L2 holds a real one. *)
Definition w_stale : World :=
  mkWorld [(q, [])] {[ q := py "Risk: Low" ]} {[ q := py "Risk: Low" ]} [].

(** The tiers disagree on [q], both with real values. *)
Definition w_both : World :=
  mkWorld [(q, py "Risk: High")] {[ q := py "Risk: Low" ]}
          {[ q := py "Risk: Low" ]} [].

(** Only L2 knows [q]. *)
Definition w_l2_only : World :=
  mkWorld [] {[ q := py "Risk: Low" ]} {[ q := py "Risk: Low" ]} [].

(** Both tiers hold the empty string for [q]. *)
Definition w_blank : World :=
  mkWorld [(q, [])] {[ q := [] ]} {[ q := [] ]} [].

(** The key ["q00"] ... ["q99"]. *)
Definition key (i : nat) : str :=
  py "q" ++ [N.of_nat (48 + i / 10); N.of_nat (48 + i mod 10)].

(** An L1 holding [n] keys, each with the value ["v"]. *)
Definition filled (n : nat) : L1.store :=
  (fun i => (key i, py "v")) <$> seq 0 n.

(** L1 is full; both tiers hold the empty string for ["q50"]. *)
Definition w_full_blank : World :=
  mkWorld ((fun i => (key i, if i =? 50 then [] else py "v"))
             <$> seq 0 L1_CACHE_SIZE)
          {[ key 50 := [] ]} {[ key 50 := [] ]} [].

(** Three feed entries. *)
Definition entry (title link published : string) : gmap str str :=
  {[ py "title" := py title; py "link" := py link;
     py "published" := py published ]}.

Definition item1 : gmap str str :=
  entry "Roof fall advisory" "https://dgms.example/1" "2024-01-01".
Definition item2 : gmap str str :=
  entry "Methane circular" "https://dgms.example/2" "2024-01-02".
Definition item3 : gmap str str :=
  entry "Haul road notice" "https://dgms.example/3" "2024-01-03".

Definition model_down : exn :=
  Exn GenerationUnavailable (py "model unreachable").

(** The model is unreachable for the prompt derived from [item2] only. *)
Definition env_partial : Env :=
  mkEnv (faiss_search env_ok) (documents env_ok)
        (fun _ prompt =>
           if bool_decide
                (prompt
                 = rag_prompt
                     (update_prompt item2 (content_of (Ok [py "Circular text."])))
                     (documents env_ok))
           then Raise model_down
           else Ok (py "Risk: High"))
        no_fault (db_rollback env_ok) (http_get env_ok).

(** One task after the other, and all three abreast, last task first. *)
Definition in_turn : list nat :=
  replicate 6 0 ++ replicate 6 1 ++ replicate 6 2.
Definition abreast : list nat :=
  [2; 1; 0; 2; 1; 0; 2; 1; 0; 2; 1; 0; 2; 1; 0; 2; 1; 0].

End Demo.

(** ** The other endpoints of [main1.py] *)

(** The text of ["⚠️ Query is empty."]. *)
Definition empty_query_text : str := [9888%N; 65039%N] ++ py " Query is empty.".

(** The handler of [/query], for a JSON body whose values are strings.
    The value returned is the one the handler puts under ["response"]. *)
Definition query_agent (env : Env) (data : gmap str str) : M str :=
  let query := item_get data "query" in
  if negb (truthy query) then ret empty_query_text
  else cached_ask env query.

(** The prompt of [/audit_report_pdf]. *)
Definition audit_prompt (state year hazard_type : str) : str :=
  py "You are a mining safety audit assistant. Using the DGMS mining accident data, "
  ++ py "generate a detailed safety audit report for:" ++ nl ++ nl
  ++ py "State: " ++ state ++ nl
  ++ py "Year: " ++ year ++ nl
  ++ py "Hazard Type: " ++ hazard_type ++ nl ++ nl
  ++ py "Provide insights on:" ++ nl
  ++ py "- Total number of reported incidents" ++ nl
  ++ py "- Distribution of accidents by category (gas leak, collapse, fire, machinery, etc.)"
  ++ nl
  ++ py "- Severity levels (High / Medium / Low)" ++ nl
  ++ py "- Common root causes" ++ nl
  ++ py "- Recommendations to improve safety" ++ nl
  ++ py "- Year-over-year or state-wise trend if applicable" ++ nl ++ nl
  ++ py "Return the report as plain text (not JSON).".

(** A line boundary of [str.splitlines]. *)
Definition is_linebreak (c : N) : bool :=
  ((10 <=? c) && (c <=? 13) || (28 <=? c) && (c <=? 30)
   || (c =? 133) || (c =? 8232) || (c =? 8233))%N.

(** [text.splitlines()], [cur] being the line read so far: a line ends at
    a line boundary, ["\r\n"] counting as one, and the text after the last
    boundary is a line when it is not empty. *)
Fixpoint splitlines_from (cur : str) (text : str) : list str :=
  match text with
  | [] => match cur with [] => [] | _ => [cur] end
  | c :: rest =>
      if is_linebreak c then
        cur :: match rest with
               | c' :: rest' =>
                   if ((c =? 13) && (c' =? 10))%N then splitlines_from [] rest'
                   else splitlines_from [] rest
               | [] => splitlines_from [] rest
               end
      else splitlines_from (cur ++ [c]) rest
  end.

Definition splitlines (text : str) : list str := splitlines_from [] text.

(** The strings the inner loop of the report draws for one line: while the
    line has more than 90 characters its first 90 are drawn and dropped,
    then what is left is drawn.  [fuel] bounds the iterations. *)
Fixpoint wrap_line (fuel : nat) (line : str) : list str :=
  match fuel with
  | 0 => [line]
  | S fuel' =>
      if 90 <? length line then take 90 line :: wrap_line fuel' (drop 90 line)
      else [line]
  end.

(** The strings drawn at x = 60 for the whole report, in order; a line of
    [n] characters needs fewer than [n] iterations. *)
Definition report_rows (report_text : str) : list str :=
  concat (List.map (fun line => wrap_line (length line) line)
                   (splitlines report_text)).

(** ** The metadata of the vector store ([agent.py]) *)

Unset Elimination Schemes.

(** An unpickled object, as far as the loader looks at it. *)
Inductive PyObj :=
  | PStr (s : str)
  | PList (items : list PyObj)
  | PTuple (items : list PyObj)
  | PDict (entries : list (PyObj * PyObj))   (* in insertion order *)
  | PNone
  | POther (sized : bool).    (* any other object; [sized]: it has a length *)

Set Elimination Schemes.

(** Induction on an object, through the items of lists and tuples and the
    values of dicts. *)
Section PyObjInduction.

Variable P : PyObj -> Prop.
Hypothesis HStr : forall s, P (PStr s).
Hypothesis HList : forall items, Forall P items -> P (PList items).
Hypothesis HTuple : forall items, Forall P items -> P (PTuple items).
Hypothesis HDict :
  forall entries, Forall (fun kv => P kv.2) entries -> P (PDict entries).
Hypothesis HNone : P PNone.
Hypothesis HOther : forall sized, P (POther sized).

Fixpoint PyObj_ind (obj : PyObj) : P obj :=
  match obj with
  | PStr s => HStr s
  | PList items =>
      HList items
        ((fix all (l : list PyObj) : Forall P l :=
            match l with
            | [] => List.Forall_nil P
            | x :: l' => @List.Forall_cons _ P x l' (PyObj_ind x) (all l')
            end) items)
  | PTuple items =>
      HTuple items
        ((fix all (l : list PyObj) : Forall P l :=
            match l with
            | [] => List.Forall_nil P
            | x :: l' => @List.Forall_cons _ P x l' (PyObj_ind x) (all l')
            end) items)
  | PDict entries =>
      HDict entries
        ((fix all (l : list (PyObj * PyObj)) : Forall (fun kv => P kv.2) l :=
            match l with
            | [] => List.Forall_nil (fun kv => P kv.2)
            | kv :: l' =>
                @List.Forall_cons _ (fun kv => P kv.2) kv l'
                  (PyObj_ind kv.2) (all l')
            end) entries)
  | PNone => HNone
  | POther sized => HOther sized
  end.

End PyObjInduction.

Definition is_str (x : PyObj) : bool :=
  match x with PStr _ => true | _ => false end.

(** Truthiness of what [find_docs] returns: a list or [None]. *)
Definition truthy_found (found : PyObj) : bool :=
  match found with PList (_ :: _) => true | _ => false end.

(** [find_docs] *)
Fixpoint find_docs (obj : PyObj) : PyObj :=
  match obj with
  | PList items => if forallb is_str items then obj else PNone
  | PDict entries =>
      (fix values (es : list (PyObj * PyObj)) : PyObj :=
         match es with
         | [] => PNone
         | (_, v) :: es' =>
             let found := find_docs v in
             if truthy_found found then found else values es'
         end) entries
  | PTuple items =>
      (fix each (vs : list PyObj) : PyObj :=
         match vs with
         | [] => PNone
         | v :: vs' =>
             let found := find_docs v in
             if truthy_found found then found else each vs'
         end) items
  | _ => PNone
  end.

(** ["documents" in d] and [d["documents"]] for a dict [d]. *)
Definition is_documents_key (k : PyObj) : bool :=
  match k with PStr s => bool_decide (s = py "documents") | _ => false end.

Fixpoint dict_documents (entries : list (PyObj * PyObj)) : option PyObj :=
  match entries with
  | [] => None
  | (k, v) :: entries' =>
      if is_documents_key k then Some v else dict_documents entries'
  end.

(** The loop over a tuple [meta]: the first item that is a list, or a dict
    with the key ["documents"], decides. *)
Fixpoint scan_tuple (items : list PyObj) : PyObj :=
  match items with
  | [] => PNone
  | PList l :: _ => PList l
  | PDict entries :: items' =>
      match dict_documents entries with
      | Some v => v
      | None => scan_tuple items'
      end
  | _ :: items' => scan_tuple items'
  end.

(** Steps 1 to 3 of the module-level search for [documents] in the
    unpickled [meta]: by the type of [meta]. *)
Definition direct_documents (meta : PyObj) : PyObj :=
  match meta with
  | PList _ => meta
  | PTuple items => scan_tuple items
  | PDict entries => default PNone (dict_documents entries)
  | _ => PNone
  end.

(** Whether [len(obj)] is defined. *)
Definition has_len (obj : PyObj) : bool :=
  match obj with
  | PStr _ | PList _ | PTuple _ | PDict _ => true
  | PNone => false
  | POther sized => sized
  end.

(** Steps 1 to 4: what [documents] is when step 5 is reached. *)
Definition located (meta : PyObj) : PyObj :=
  match direct_documents meta with
  | PNone => find_docs meta
  | documents => documents
  end.

(** The whole search and the [print] that closes it: the global
    [documents], or [None] when a [TypeError] ends the import, raised by
    step 5 when nothing was located or by [len(documents)] in the [print]
    when what was located has no length. *)
Definition load_documents (meta : PyObj) : option PyObj :=
  let documents := located meta in
  match documents with
  | PNone => None
  | _ => if has_len documents then Some documents else None
  end.

(** A non-empty list of strings that can be reached from an object
    through the items of tuples and the values of dicts. *)
Inductive has_docs : PyObj -> Prop :=
  | has_docs_list items :
      items <> [] -> forallb is_str items = true -> has_docs (PList items)
  | has_docs_tuple items v :
      v ∈ items -> has_docs v -> has_docs (PTuple items)
  | has_docs_dict entries k v :
      (k, v) ∈ entries -> has_docs v -> has_docs (PDict entries).

(** ** What one call may do to a tier *)

(** L1 after a call for [query]: as before, or one [set_to_l1] later, with
    a value that the row of [query] in L2 then holds too. *)
Definition l1_synced (query : str) (w w' : World) : Prop :=
  l1 w' = l1 w
  ∨ ∃ v, l1 w' = L1.dict_set (L1.evicted L1_CACHE_SIZE (l1 w)) query v
         ∧ l2 w' !! query = Some v.

(** L2 after a call for [query]: as before, or with the row of [query]
    upserted. *)
Definition l2_step (query : str) (m m' : gmap str str) : Prop :=
  m' = m ∨ ∃ v, m' = <[query := v]> m.

(** SQLite never rolls the open transaction back on its own. *)
Definition no_rollback (env : Env) : Prop :=
  ∀ t stmt, db_rollback env t stmt = false.

(** L2 after a call for [query] whatever SQLite does: as [l2_step] says,
    or rolled back to the table as last committed, the call having raised
    without writing L1. *)
Definition l2_fate (env : Env) (query : str) (w w' : World) : Prop :=
  l2_step query (l2 w) (l2 w')
  ∨ (¬ no_rollback env ∧ l2 w' = durable w ∧ l1 w' = l1 w).

(** What one step of any task may do to the two tiers. *)
Definition tier_fate (env : Env) (w w' : World) : Prop :=
  ∃ query, l1_synced query w w' ∧ l2_fate env query w w'.

(** A text without a line feed. *)
Definition one_line (s : str) : Prop := 10%N ∉ s.

(** Every key L1 holds has a row in L2. *)
Definition l1_in_l2 (w : World) : Prop :=
  ∀ k, is_Some (L1.get_from_l1 (l1 w) k) → is_Some (l2 w !! k).

(** What one step of any task may do to the two tiers when SQLite rolls
    nothing back. *)
Definition tier_step (w w' : World) : Prop :=
  ∃ query, l1_synced query w w' ∧ l2_step query (l2 w) (l2 w').

(** ** More concrete environments *)

Module Samples.

(** Every INSERT fails; reads work and the model answers. *)
Definition env_insert_down : Env :=
  mkEnv (faiss_search Demo.env_ok) (documents Demo.env_ok)
        (generate_content Demo.env_ok)
        (fun _ stmt =>
           match stmt with
           | EvUpsert _ _ => Some (Exn StorageUnavailable (py "disk I/O error"))
           | _ => None
           end)
        (db_rollback Demo.env_ok) (http_get Demo.env_ok).

(** Every INSERT fails for want of room, and SQLite rolls the open
    transaction back. *)
Definition env_disk_full : Env :=
  mkEnv (faiss_search Demo.env_ok) (documents Demo.env_ok)
        (generate_content Demo.env_ok)
        (fun _ stmt =>
           match stmt with
           | EvUpsert _ _ =>
               Some (Exn StorageUnavailable (py "database or disk is full"))
           | _ => None
           end)
        (fun _ _ => true)
        (http_get Demo.env_ok).

(** The row of ["q07"] is in the open transaction, its commit having
    failed, and has been promoted to L1. *)
Definition w_pending : World :=
  mkWorld [(Demo.key 7, py "v")] {[ Demo.key 7 := py "v" ]} ∅ [].

(** The model answers with white space around its text. *)
Definition env_padded : Env :=
  mkEnv (faiss_search Demo.env_ok) (documents Demo.env_ok)
        (fun _ _ => Ok ([32; 32]%N ++ py "Risk: High" ++ [10]%N))
        Demo.no_fault (db_rollback Demo.env_ok) (http_get Demo.env_ok).

Definition stop : exn := Exn StopIteration (py "generator exhausted").

(** The model call raises [StopIteration] for the prompt derived from
    [Demo.item2] only. *)
Definition env_stop_partial : Env :=
  mkEnv (faiss_search Demo.env_ok) (documents Demo.env_ok)
        (fun _ prompt =>
           if bool_decide
                (prompt
                 = rag_prompt
                     (update_prompt Demo.item2
                        (content_of (Ok [py "Circular text."])))
                     (documents Demo.env_ok))
           then Raise stop
           else Ok (py "Risk: High"))
        Demo.no_fault (db_rollback Demo.env_ok) (http_get Demo.env_ok).

(** The model call raises [StopIteration]. *)
Definition env_gen_stop : Env :=
  mkEnv (faiss_search Demo.env_ok) (documents Demo.env_ok)
        (fun _ _ => Raise (Exn StopIteration (py "generator exhausted")))
        Demo.no_fault (db_rollback Demo.env_ok) (http_get Demo.env_ok).

End Samples.

(** Unfolds the monadic plumbing of the coroutine down to its effects. *)
Ltac unfold_m :=
  cbv [cached_ask_begin cached_ask_resume coroutine bind ret lift emit
       get_trace get_from_l1 get_from_l2 set_to_l2 sqlite_call after_miss
       is_write andb];
  cbn [l1 l2 durable trace].

Ltac rw_m H := rewrite H; cbv beta iota; cbn [l1 l2 durable trace truthy_opt].

(** * Properties *)

(** ** The dict operations *)

Module L1Facts.
Import L1.

Lemma dict_get_set_eq (d : store) k v : dict_get (dict_set d k v) k = Some v.
Proof.
  induction d as [|[k' v'] d IH]; simpl.
  - by rewrite decide_True.
  - destruct (decide (k' = k)) as [->|Hne]; simpl.
    + by rewrite decide_True.
    + by rewrite decide_False.
Qed.

Lemma dict_get_set_ne (d : store) k k' v :
  k ≠ k' → dict_get (dict_set d k v) k' = dict_get d k'.
Proof.
  intros Hne. induction d as [|[k0 v0] d IH]; simpl.
  - by rewrite decide_False.
  - destruct (decide (k0 = k)) as [->|Hne0]; simpl.
    + by rewrite !decide_False.
    + by rewrite IH.
Qed.

Lemma dict_get_None (d : store) k : dict_get d k = None ↔ k ∉ keys d.
Proof.
  unfold keys. induction d as [|[k' v'] d IH]; simpl.
  - split; [intros _; apply not_elem_of_nil | done].
  - rewrite not_elem_of_cons. destruct (decide (k' = k)) as [->|Hne].
    + split; [done | intros [? _]; done].
    + rewrite IH. split; [intros ?; split; [congruence | done] | by intros [_ ?]].
Qed.

Lemma dict_get_map (val : str → str) (ks : list str) k :
  dict_get ((λ k, (k, val k)) <$> ks) k
  = if decide (k ∈ ks) then Some (val k) else None.
Proof.
  induction ks as [|k' ks IH]; cbn [fmap list_fmap dict_get].
  - destruct (decide (k ∈ [])) as [Hin|]; [|done]. by apply elem_of_nil in Hin.
  - rewrite IH.
    destruct (decide (k' = k)) as [->|Hne].
    + destruct (decide (k ∈ k :: ks)) as [|Hn]; [done |].
      exfalso. apply Hn. left.
    + destruct (decide (k ∈ ks)) as [Hin|Hnin];
        destruct (decide (k ∈ k' :: ks)) as [Hin'|Hnin']; try done.
      * exfalso. apply Hnin'. by right.
      * exfalso. apply elem_of_cons in Hin' as [->|?]; done.
Qed.

Lemma keys_map (val : str → str) (ks : list str) :
  keys ((λ k, (k, val k)) <$> ks) = ks.
Proof. unfold keys. induction ks; simpl; [done | by f_equal]. Qed.

Lemma dict_set_fresh (d : store) k v :
  k ∉ keys d → dict_set d k v = d ++ [(k, v)].
Proof.
  unfold keys. induction d as [|[k' v'] d IH]; simpl; [done |].
  rewrite not_elem_of_cons. intros [Hne Hnin].
  rewrite decide_False by congruence. by rewrite IH.
Qed.

Lemma length_dict_set (d : store) k v :
  length (dict_set d k v) ≤ S (length d).
Proof.
  induction d as [|[k' v'] d IH]; simpl; [lia |].
  destruct (decide (k' = k)); simpl; lia.
Qed.

Lemma length_dict_set_present (d : store) k v :
  k ∈ keys d → length (dict_set d k v) = length d.
Proof.
  unfold keys. induction d as [|[k' v'] d IH]; simpl.
  - intros H. by apply elem_of_nil in H.
  - destruct (decide (k' = k)) as [->|Hne]; simpl; [done |].
    rewrite elem_of_cons. intros [?|Hin]; [congruence |]. by rewrite IH.
Qed.

(** With a positive capacity [set_to_l1] never raises. *)
Lemma set_to_l1_eq cap (d : store) k v :
  0 < cap → set_to_l1 cap d k v = Ok (dict_set (evicted cap d) k v).
Proof.
  intros Hcap. unfold set_to_l1, evicted.
  destruct (cap <=? length d) eqn:Hfull; [|done].
  apply Nat.leb_le in Hfull.
  destruct d as [|[k0 v0] d]; simpl in *; [lia |].
  by rewrite decide_True.
Qed.

(** With capacity 0 the eviction has nothing to evict from an empty dict. *)
Lemma set_to_l1_zero k v : set_to_l1 0 [] k v = Raise (Exn StopIteration []).
Proof. done. Qed.

Lemma length_evicted cap (d : store) :
  0 < cap → length d ≤ cap → length (evicted cap d) < cap.
Proof.
  intros Hcap Hlen. unfold evicted.
  destruct (cap <=? length d) eqn:Hfull.
  - apply Nat.leb_le in Hfull. destruct d; simpl in *; lia.
  - apply Nat.leb_gt in Hfull. lia.
Qed.

Lemma set_to_l1_get cap (d d' : store) k v :
  set_to_l1 cap d k v = Ok d' → dict_get d' k = Some v.
Proof.
  unfold set_to_l1. destruct (cap <=? length d).
  - destruct (first_key d); [|done..]. intros [= <-]. apply dict_get_set_eq.
  - intros [= <-]. apply dict_get_set_eq.
Qed.

Lemma set_to_l1_length cap (d d' : store) k v :
  length d ≤ cap → set_to_l1 cap d k v = Ok d' → length d' ≤ cap.
Proof.
  intros Hlen. destruct cap as [|cap].
  - destruct d; simpl in *; [done | lia].
  - rewrite set_to_l1_eq by lia. intros [= <-].
    pose proof (length_evicted (S cap) d ltac:(lia) Hlen).
    pose proof (length_dict_set (evicted (S cap) d) k v). lia.
Qed.

Lemma apply_op_length cap (d : store) o :
  length d ≤ cap → length (apply_op cap d o) ≤ cap.
Proof.
  intros Hlen. destruct o as [k|k v]; simpl; [done |].
  destruct (set_to_l1 cap d k v) eqn:Hset; [|done..].
  by eapply set_to_l1_length.
Qed.

Lemma run_ops_length cap ops (d : store) :
  length d ≤ cap → length (run_ops cap d ops) ≤ cap.
Proof.
  unfold run_ops. revert d.
  induction ops as [|o ops IH]; intros d Hlen; simpl; [done |].
  by apply IH, apply_op_length.
Qed.

Lemma tail_drop {A} (l : list A) n : tail (drop n l) = drop (S n) l.
Proof.
  replace (tail (drop n l)) with (drop 1 (drop n l)) by by destruct (drop n l).
  rewrite drop_drop. f_equal. lia.
Qed.

Lemma put_all_snoc cap val (d : store) ks k :
  put_all cap val d (ks ++ [k])
  = apply_op cap (put_all cap val d ks) (Put k (val k)).
Proof. unfold put_all, run_ops. by rewrite map_app, foldl_app. Qed.

(** First in, first out: after putting distinct keys into an empty dict,
    the dict holds the last [cap] of them, in the order they were put. *)
Lemma put_all_fifo cap val (ks : list str) :
  0 < cap → NoDup ks →
  put_all cap val [] ks = (λ k, (k, val k)) <$> drop (length ks - cap) ks.
Proof.
  intros Hcap. induction ks as [|k ks IH] using rev_ind; [done |].
  intros Hnd. apply NoDup_app in Hnd as (Hnd & Hfresh & _).
  rewrite put_all_snoc, IH by done. simpl.
  rewrite set_to_l1_eq by done.
  rewrite length_app. simpl.
  assert (Hnin : k ∉ ks) by (intros Hin; apply (Hfresh k Hin); left).
  unfold evicted. rewrite length_fmap, length_drop.
  destruct (cap <=? length ks - (length ks - cap)) eqn:Hfull.
  - apply Nat.leb_le in Hfull.
    replace (length ks + 1 - cap) with (S (length ks - cap)) by lia.
    rewrite drop_app_le by lia.
    rewrite <- fmap_tail, tail_drop, fmap_app. simpl.
    apply dict_set_fresh. rewrite keys_map.
    intros Hin. by apply subseteq_drop in Hin.
  - apply Nat.leb_gt in Hfull.
    replace (length ks + 1 - cap) with 0 by lia.
    replace (length ks - cap) with 0 by lia.
    rewrite !drop_0, fmap_app. simpl.
    apply dict_set_fresh. by rewrite keys_map.
Qed.

End L1Facts.

(** ** [str.strip] *)

Lemma lstrip_first (s : str) c r : lstrip s = c :: r → isspace c = false.
Proof.
  induction s as [|a s IH]; simpl; [done |].
  destruct (isspace a) eqn:Ha; [done |]. by intros [= <- _].
Qed.

Lemma lstrip_suffix (s : str) :
  ∃ pre, s = pre ++ lstrip s ∧ Forall (λ c, isspace c = true) pre.
Proof.
  induction s as [|a s (pre & IH & Hpre)]; simpl; [by exists [] |].
  destruct (isspace a) eqn:Ha.
  - exists (a :: pre). simpl. split; [by f_equal | by constructor].
  - by exists [].
Qed.

Lemma lstrip_id (s : str) :
  (∀ c r, s = c :: r → isspace c = false) → lstrip s = s.
Proof.
  destruct s as [|a s]; simpl; [done |]. intros H. by rewrite (H a s).
Qed.

Lemma strip_ends (s : str) :
  (∀ c r, strip s = c :: r → isspace c = false)
  ∧ (∀ r c, strip s = r ++ [c] → isspace c = false).
Proof.
  unfold strip, rstrip. split.
  - intros c r Hs.
    destruct (lstrip_suffix (rev (lstrip s))) as (pre & Hpre & _).
    apply (f_equal (@rev N)) in Hpre.
    rewrite rev_involutive, rev_app_distr, Hs in Hpre. simpl in Hpre.
    by apply lstrip_first in Hpre.
  - intros r c Hs. apply (f_equal (@rev N)) in Hs.
    rewrite rev_involutive, rev_app_distr in Hs. simpl in Hs.
    by apply lstrip_first in Hs.
Qed.

(** [strip] takes white space off both ends and nothing else. *)
Lemma strip_decompose (s : str) :
  ∃ pre post, s = pre ++ strip s ++ post
              ∧ Forall (λ c, isspace c = true) pre
              ∧ Forall (λ c, isspace c = true) post.
Proof.
  destruct (lstrip_suffix s) as (pre & Hs & Hpre).
  destruct (lstrip_suffix (rev (lstrip s))) as (post & Ht & Hpost).
  exists pre, (rev post). split; [|split; [done |]].
  - unfold strip, rstrip. rewrite <- rev_app_distr, <- Ht, rev_involutive.
    exact Hs.
  - by apply Forall_rev.
Qed.

(** A text with no white space at either end is its own [strip]. *)
Lemma strip_id (s : str) :
  (∀ c r, s = c :: r → isspace c = false) →
  (∀ r c, s = r ++ [c] → isspace c = false) →
  strip s = s.
Proof.
  intros Hfirst Hlast. unfold strip, rstrip.
  rewrite (lstrip_id s Hfirst), lstrip_id; [apply rev_involutive |].
  intros c r Hrev. apply (Hlast (rev r) c).
  apply (f_equal (@rev N)) in Hrev. by rewrite rev_involutive in Hrev.
Qed.

(** ** [cached_ask], case by case *)

Lemma L1_CACHE_SIZE_pos : 0 < L1_CACHE_SIZE.
Proof. unfold L1_CACHE_SIZE. lia. Qed.

Lemma set_to_l1_world query response w :
  set_to_l1 query response w
  = (Ok tt, mkWorld (L1.dict_set (L1.evicted L1_CACHE_SIZE (l1 w)) query response)
                    (l2 w) (durable w) (trace w ++ [EvL1Set query response])).
Proof.
  unfold set_to_l1. by rewrite L1Facts.set_to_l1_eq by apply L1_CACHE_SIZE_pos.
Qed.

Section CachedAsk.

Variable env : Env.

(** An L1 hit: one dict lookup and nothing else. *)
Lemma begin_l1_hit query w v :
  L1.get_from_l1 (l1 w) query = Some v → truthy v = true →
  cached_ask_begin env query w
  = (Ok (Some v), mkWorld (l1 w) (l2 w) (durable w) (trace w ++ [EvL1Get query])).
Proof. intros Hget Hv. unfold_m. rw_m Hget. by rw_m Hv. Qed.

(** The SELECT raises: the exception leaves [cached_ask]. *)
Lemma begin_l2_fault query w e :
  truthy_opt (L1.get_from_l1 (l1 w) query) = false →
  db_fault env (trace w ++ [EvL1Get query]) (EvSelect query) = Some e →
  cached_ask_begin env query w = (Raise (pep479 e), after_miss query w).
Proof.
  intros Hget Hdb. unfold_m. rw_m Hget. rw_m Hdb. by rewrite <- app_assoc.
Qed.

(** An L2 hit: the value is put into L1 and returned. *)
Lemma begin_l2_hit query w v :
  truthy_opt (L1.get_from_l1 (l1 w) query) = false →
  db_fault env (trace w ++ [EvL1Get query]) (EvSelect query) = None →
  l2 w !! query = Some v → truthy v = true →
  cached_ask_begin env query w
  = (Ok (Some v),
     mkWorld (L1.dict_set (L1.evicted L1_CACHE_SIZE (l1 w)) query v) (l2 w)
             (durable w)
             (trace w ++ [EvL1Get query; EvSelect query; EvL1Set query v])).
Proof.
  intros Hget Hdb Hl2 Hv. unfold_m. rw_m Hget. rw_m Hdb. rw_m Hl2. rw_m Hv.
  rw_m set_to_l1_world. by rewrite <- !app_assoc.
Qed.

(** Both tiers miss: the coroutine reaches its [await]. *)
Lemma begin_miss query w :
  truthy_opt (L1.get_from_l1 (l1 w) query) = false →
  db_fault env (trace w ++ [EvL1Get query]) (EvSelect query) = None →
  truthy_opt (l2 w !! query) = false →
  cached_ask_begin env query w = (Ok None, after_miss query w).
Proof.
  intros Hget Hdb Hl2. unfold_m. rw_m Hget. rw_m Hdb. rw_m Hl2.
  by rewrite <- app_assoc.
Qed.

(** The write-through when SQLite accepts both calls: the row is
    committed before L1 is written. *)
Lemma resume_ok query result w :
  let s := strip result in
  db_fault env (trace w) (EvUpsert query s) = None →
  db_fault env (trace w ++ [EvUpsert query s]) EvCommit = None →
  cached_ask_resume env query result w
  = (Ok s,
     mkWorld (L1.dict_set (L1.evicted L1_CACHE_SIZE (l1 w)) query s)
             (<[query := s]> (l2 w)) (<[query := s]> (l2 w))
             (trace w ++ [EvUpsert query s; EvCommit; EvL1Set query s])).
Proof.
  intros s Hup Hco. unfold_m. fold s. rw_m Hup. rw_m Hco.
  rw_m set_to_l1_world. by rewrite <- !app_assoc.
Qed.

(** The INSERT raises: nothing is written; the open transaction is rolled
    back when SQLite says so. *)
Lemma resume_insert_fault query result w e :
  let s := strip result in
  db_fault env (trace w) (EvUpsert query s) = Some e →
  cached_ask_resume env query result w
  = (Raise (pep479 e),
     mkWorld (l1 w)
             (if db_rollback env (trace w) (EvUpsert query s)
              then durable w else l2 w)
             (durable w) (trace w ++ [EvUpsert query s])).
Proof. intros s Hup. unfold_m. fold s. by rw_m Hup. Qed.

(** The commit raises: L1 is not written; the row stays in the open
    transaction unless SQLite rolls that back. *)
Lemma resume_commit_fault query result w e :
  let s := strip result in
  db_fault env (trace w) (EvUpsert query s) = None →
  db_fault env (trace w ++ [EvUpsert query s]) EvCommit = Some e →
  cached_ask_resume env query result w
  = (Raise (pep479 e),
     mkWorld (l1 w)
             (if db_rollback env (trace w ++ [EvUpsert query s]) EvCommit
              then durable w else <[query := s]> (l2 w))
             (durable w) (trace w ++ [EvUpsert query s; EvCommit])).
Proof.
  intros s Hup Hco. unfold_m. fold s. rw_m Hup. rw_m Hco.
  by rewrite <- app_assoc.
Qed.

(** [cached_ask] after a miss is the awaited pipeline, then the
    write-through. *)
Lemma cached_ask_miss query w :
  cached_ask_begin env query w = (Ok None, after_miss query w) →
  cached_ask env query w
  = (let* result := to_thread (ask env query) in
     cached_ask_resume env query result) (after_miss query w).
Proof. intros Hbegin. unfold cached_ask at 1, bind at 1. by rewrite Hbegin. Qed.

Lemma cached_ask_miss_ok query w result w1 :
  cached_ask_begin env query w = (Ok None, after_miss query w) →
  ask env query (after_miss query w) = (Ok result, w1) →
  cached_ask env query w = cached_ask_resume env query result w1.
Proof.
  intros Hbegin Hask. rewrite cached_ask_miss by done.
  unfold bind, to_thread. by rewrite Hask.
Qed.

(** An exception of the pipeline reaches the coroutine through the
    awaited future. *)
Lemma cached_ask_miss_raise query w e w1 :
  cached_ask_begin env query w = (Ok None, after_miss query w) →
  ask env query (after_miss query w) = (Raise e, w1) →
  cached_ask env query w = (awaited (Raise e), w1).
Proof.
  intros Hbegin Hask. rewrite cached_ask_miss by done.
  unfold bind, to_thread. rewrite Hask. by destruct e as [[] msg].
Qed.

Lemma awaited_raise {A} (e : exn) :
  exn_kind e ≠ StopIteration → awaited (@Raise A e) = Raise e.
Proof. by destruct e as [[] msg]. Qed.

Lemma awaited_stop {A} (e : exn) :
  exn_kind e = StopIteration → awaited (@Raise A e) = Never.
Proof. destruct e as [kind msg]. simpl. by intros ->. Qed.

Lemma cached_ask_hit query w v w' :
  cached_ask_begin env query w = (Ok (Some v), w') →
  cached_ask env query w = (Ok v, w').
Proof. intros Hbegin. unfold cached_ask, bind. by rewrite Hbegin. Qed.

End CachedAsk.

(** ** The pipeline touches no cache tier *)

Section Pipeline.

Variable env : Env.

Lemma search_faiss_eq query w :
  search_faiss env query w
  = (hits env (trace w) query,
     mkWorld (l1 w) (l2 w) (durable w) (trace w ++ [EvSearch query])).
Proof. unfold search_faiss. by unfold_m. Qed.

Lemma generate_answer_eq query docs w :
  generate_answer env query docs w
  = (generate_content env (trace w) (rag_prompt query docs),
     mkWorld (l1 w) (l2 w) (durable w) (trace w ++ [EvGenerate (rag_prompt query docs)])).
Proof. unfold generate_answer. by unfold_m. Qed.

(** [ask] leaves both tiers alone and begins with a retrieval. *)
Lemma ask_frame query w r w1 :
  ask env query w = (r, w1) →
  l1 w1 = l1 w ∧ l2 w1 = l2 w
  ∧ ∃ evs, trace w1 = trace w ++ EvSearch query :: evs
           ∧ Forall (fun ev => is_pipeline ev = true) evs.
Proof.
  unfold ask, bind. rewrite search_faiss_eq.
  destruct (hits env (trace w) query) as [docs|e|].
  - rewrite generate_answer_eq. cbn [l1 l2 trace]. intros [= <- <-].
    cbn [l1 l2 trace]. repeat split.
    exists [EvGenerate (rag_prompt query docs)].
    split; [by rewrite <- app_assoc | by repeat constructor].
  - intros [= <- <-]. cbn [l1 l2 trace]. repeat split.
    exists []. by split.
  - intros [= <- <-]. cbn [l1 l2 trace]. repeat split.
    exists []. by split.
Qed.

Lemma ask_durable query w r w1 :
  ask env query w = (r, w1) → durable w1 = durable w.
Proof.
  unfold ask, bind. rewrite search_faiss_eq.
  destruct (hits env (trace w) query) as [docs|e|].
  - rewrite generate_answer_eq. by intros [= <- <-].
  - by intros [= <- <-].
  - by intros [= <- <-].
Qed.

(** A failing retrieval fails the pipeline; generation is not tried. *)
Lemma ask_retrieval_fails query w e :
  faiss_search env (trace w) query = Raise e →
  ask env query w
  = (Raise e, mkWorld (l1 w) (l2 w) (durable w) (trace w ++ [EvSearch query])).
Proof.
  intros H. unfold ask, bind. rewrite search_faiss_eq. unfold hits.
  by rewrite H.
Qed.

(** A failing generation fails the pipeline. *)
Lemma ask_generation_fails query w docs e :
  (search_faiss env query w).1 = Ok docs →
  generate_content env (trace w ++ [EvSearch query]) (rag_prompt query docs)
  = Raise e →
  (ask env query w).1 = Raise e.
Proof.
  intros Hs Hg. unfold ask, bind.
  destruct (search_faiss env query w) as [r w1] eqn:Hsearch.
  rewrite search_faiss_eq in Hsearch. simpl in Hs. subst r.
  injection Hsearch as _ <-.
  rewrite generate_answer_eq. cbn [l1 l2 trace fst]. by rewrite Hg.
Qed.

End Pipeline.

(** ** What a returned value tells about the tiers *)

Section Inversion.

Variable env : Env.

Lemma truthy_nonempty (v : str) : truthy v = true ↔ v ≠ [].
Proof. by destruct v. Qed.

(** A value returned from a tier is non-empty and is in L1 afterwards. *)
Lemma begin_some_inv query w v w' :
  cached_ask_begin env query w = (Ok (Some v), w') →
  v ≠ [] ∧ L1.get_from_l1 (l1 w') query = Some v.
Proof.
  assert (Hl2 : truthy_opt (L1.get_from_l1 (l1 w) query) = false →
                cached_ask_begin env query w = (Ok (Some v), w') →
                v ≠ [] ∧ L1.get_from_l1 (l1 w') query = Some v).
  { intros Hfalsy.
    destruct (db_fault env (trace w ++ [EvL1Get query]) (EvSelect query))
      as [e|] eqn:Hdb.
    { by rewrite (begin_l2_fault env query w e). }
    destruct (l2 w !! query) as [v2|] eqn:Hq.
    - destruct (truthy v2) eqn:Hv2.
      + rewrite (begin_l2_hit env query w v2) by done.
        intros [= <- <-]. cbn [l1]. rewrite truthy_nonempty in Hv2.
        split; [done | apply L1Facts.dict_get_set_eq].
      + rewrite begin_miss; [done..|]. by rewrite Hq.
    - rewrite begin_miss; [done..|]. by rewrite Hq. }
  destruct (L1.get_from_l1 (l1 w) query) as [v1|] eqn:Hget; [|by apply Hl2].
  destruct (truthy v1) eqn:Hv1; [|by apply Hl2].
  rewrite (begin_l1_hit env query w v1) by done.
  intros [= <- <-]. by rewrite truthy_nonempty in Hv1.
Qed.

(** A write-through that returned has written both tiers. *)
Lemma resume_ok_inv query result w v w' :
  cached_ask_resume env query result w = (Ok v, w') →
  v = strip result
  ∧ L1.get_from_l1 (l1 w') query = Some v
  ∧ l2 w' !! query = Some v
  ∧ trace w' = trace w ++ [EvUpsert query v; EvCommit; EvL1Set query v].
Proof.
  unfold_m.
  destruct (db_fault env (trace w) _); [done |]. cbv beta iota.
  destruct (db_fault env _ EvCommit); [done |]. cbv beta iota.
  rw_m set_to_l1_world. intros [= <- <-]. cbn [l1 l2 trace].
  repeat split.
  - apply L1Facts.dict_get_set_eq.
  - apply lookup_insert_eq.
  - by rewrite <- !app_assoc.
Qed.

(** The two segments of the coroutine return or raise. *)
Lemma begin_returns query w : (cached_ask_begin env query w).1 ≠ Never.
Proof.
  unfold_m. destruct (truthy_opt (L1.get_from_l1 (l1 w) query)); [done |].
  destruct (db_fault env _ _); cbv beta iota; [done |]. cbn [l2].
  destruct (l2 w !! query) as [v|]; cbn [truthy_opt]; [|done].
  destruct (truthy v); [|done]. by rw_m set_to_l1_world.
Qed.

Lemma resume_returns query result w :
  (cached_ask_resume env query result w).1 ≠ Never.
Proof.
  unfold_m. destruct (db_fault env (trace w) _); cbv beta iota; [done |].
  destruct (db_fault env _ EvCommit); cbv beta iota; [done |].
  by rw_m set_to_l1_world.
Qed.

(** The ways through [cached_ask]: a tier answers or the SELECT raises,
    or the pipeline runs in its thread and its outcome is awaited. *)
Lemma cached_ask_inv query w r w' :
  cached_ask env query w = (r, w') →
  (∃ v, cached_ask_begin env query w = (Ok (Some v), w') ∧ r = Ok v)
  ∨ (∃ e, cached_ask_begin env query w = (Raise e, w') ∧ r = Raise e)
  ∨ (∃ w0 ra w1,
       cached_ask_begin env query w = (Ok None, w0)
       ∧ ask env query w0 = (ra, w1)
       ∧ match awaited ra with
         | Ok result => cached_ask_resume env query result w1 = (r, w')
         | other => r = other ∧ w' = w1
         end).
Proof.
  unfold cached_ask, bind, to_thread.
  pose proof (begin_returns query w) as Hret.
  destruct (cached_ask_begin env query w) as [[[v|]|e|] w0] eqn:Hbegin;
    [| | |done].
  - intros [= <- <-]. left. by exists v.
  - destruct (ask env query w0) as [ra w1] eqn:Hask. intros Hres.
    right; right. exists w0, ra, w1. split; [done |]. split; [done |].
    destruct (awaited ra) as [result|e|]; [done | |]; by injection Hres as <- <-.
  - intros [= <- <-]. right; left. by exists e.
Qed.

(** Whatever [cached_ask] returns is in L1 when it returns. *)
Lemma cached_ask_ok_l1 query w v w' :
  cached_ask env query w = (Ok v, w') →
  L1.get_from_l1 (l1 w') query = Some v.
Proof.
  intros Hcall.
  apply cached_ask_inv in Hcall
    as [(v' & Hbegin & [= <-])|[(e & _ & [=])|(w0 & ra & w1 & _ & _ & Hres)]].
  - by eapply begin_some_inv.
  - destruct (awaited ra) as [result|e|]; [|by destruct Hres..].
    by apply resume_ok_inv in Hres as (_ & ? & _).
Qed.

(** An empty value cannot come from a tier: the pipeline produced it,
    and it is stored in both tiers. *)
Lemma cached_ask_empty_inv query w w' :
  cached_ask env query w = (Ok [], w') →
  L1.get_from_l1 (l1 w') query = Some [] ∧ l2 w' !! query = Some [].
Proof.
  intros Hcall.
  apply cached_ask_inv in Hcall
    as [(v' & Hbegin & [= <-])|[(e & _ & [=])|(w0 & ra & w1 & _ & _ & Hres)]].
  - by apply begin_some_inv in Hbegin as [? _].
  - destruct (awaited ra) as [result|e|]; [|by destruct Hres..].
    by apply resume_ok_inv in Hres as (_ & ? & ? & _).
Qed.

End Inversion.

Lemma count_app p t1 t2 : count p (t1 ++ t2) = count p t1 + count p t2.
Proof. unfold count. by rewrite List.filter_app, length_app. Qed.

Lemma resume_trace env query result w :
  ∃ evs, trace (cached_ask_resume env query result w).2 = trace w ++ evs.
Proof.
  unfold_m. destruct (db_fault env (trace w) _); cbv beta iota.
  { cbn [snd trace]. by eexists. }
  destruct (db_fault env _ EvCommit); cbv beta iota.
  { cbn [snd trace]. rewrite <- !app_assoc. by eexists. }
  rw_m set_to_l1_world. cbn [snd trace]. rewrite <- !app_assoc. by eexists.
Qed.

(** ** The cache orchestrator [cached_ask] *)

(** C2, as stated, fails: with L1 holding the empty string for a key and L2
    holding another value, [cached_ask] returns the L2 value. *)
Lemma cached_ask_returns_l2_over_empty_l1 :
  L1.get_from_l1 (l1 Demo.w_stale) Demo.q = Some []
  ∧ l2 Demo.w_stale !! Demo.q = Some (py "Risk: Low")
  ∧ (cached_ask Demo.env_ok Demo.q Demo.w_stale).1 = Ok (py "Risk: Low")
  ∧ (cached_ask Demo.env_ok Demo.q Demo.w_stale).1 ≠ Ok [].
Proof. vm_compute. by repeat split. Qed.

(** C2, amended: [cached_ask] consults L1 first; an L1 entry with a
    non-empty value is returned at once, with no effect but the L1 lookup
    (no SELECT, no pipeline, both tiers as they were); without one, an L2
    entry with a non-empty value is written into L1 and returned, L2 being
    left as it was; so a key held by both tiers with different values, the
    L1 value non-empty, resolves to the L1 value. *)
Theorem cached_ask_tier_precedence (env : Env) (q : str) (w : World) :
  (∀ v, L1.get_from_l1 (l1 w) q = Some v → v ≠ [] →
     cached_ask env q w
     = (Ok v, mkWorld (l1 w) (l2 w) (durable w) (trace w ++ [EvL1Get q])))
  ∧ (∀ v, truthy_opt (L1.get_from_l1 (l1 w) q) = false →
       db_fault env (trace w ++ [EvL1Get q]) (EvSelect q) = None →
       l2 w !! q = Some v → v ≠ [] →
       ∃ w', cached_ask env q w = (Ok v, w')
             ∧ L1.get_from_l1 (l1 w') q = Some v
             ∧ l2 w' = l2 w
             ∧ trace w' = trace w ++ [EvL1Get q; EvSelect q; EvL1Set q v])
  ∧ (∀ v1 v2, L1.get_from_l1 (l1 w) q = Some v1 → l2 w !! q = Some v2 →
       v1 ≠ v2 → v1 ≠ [] → (cached_ask env q w).1 = Ok v1).
Proof.
  assert (Hhit : ∀ v, L1.get_from_l1 (l1 w) q = Some v → v ≠ [] →
     cached_ask env q w
     = (Ok v, mkWorld (l1 w) (l2 w) (durable w) (trace w ++ [EvL1Get q]))).
  { intros v Hget Hv. apply cached_ask_hit, begin_l1_hit; [done |].
    by apply truthy_nonempty. }
  split; [exact Hhit | split].
  - intros v Hget Hdb Hl2 Hv. eexists. split.
    + apply cached_ask_hit, begin_l2_hit; [done.. |]. by apply truthy_nonempty.
    + cbn [l1 l2 trace]. split; [apply L1Facts.dict_get_set_eq | done].
  - intros v1 v2 Hget _ _ Hv. by rewrite (Hhit v1).
Qed.

Lemma cached_ask_tier_precedence_witness :
  (cached_ask Demo.env_ok Demo.q Demo.w_both).1 = Ok (py "Risk: High")
  ∧ ∃ w', cached_ask Demo.env_ok Demo.q Demo.w_l2_only = (Ok (py "Risk: Low"), w')
          ∧ L1.get_from_l1 (l1 w') Demo.q = Some (py "Risk: Low")
          ∧ l2 w' = l2 Demo.w_l2_only
          ∧ trace w' = trace Demo.w_l2_only
                       ++ [EvL1Get Demo.q; EvSelect Demo.q;
                           EvL1Set Demo.q (py "Risk: Low")].
Proof.
  split.
  - apply (cached_ask_tier_precedence Demo.env_ok Demo.q Demo.w_both)
      with (v2 := py "Risk: Low"); [reflexivity | reflexivity | | ]; by vm_compute.
  - apply (cached_ask_tier_precedence Demo.env_ok Demo.q Demo.w_l2_only);
      [reflexivity | reflexivity | reflexivity | by vm_compute].
Defined.

(** C3, as stated, fails twice over.  The text stored and returned is
    not the result of the pipeline but that result stripped: for an
    answer with white space around it the caller gets another text.  And
    a pipeline success is not enough: when the INSERT raises, [cached_ask]
    raises too, the answer is lost and neither tier holds the key. *)
Lemma cached_ask_returns_stripped_or_raises :
  let padded := [32; 32]%N ++ py "Risk: High" ++ [10]%N in
  let down := Exn StorageUnavailable (py "disk I/O error") in
  let lost := cached_ask Samples.env_insert_down Demo.q Demo.w_empty in
  (ask Samples.env_padded Demo.q (after_miss Demo.q Demo.w_empty)).1 = Ok padded
  ∧ (cached_ask Samples.env_padded Demo.q Demo.w_empty).1 = Ok (py "Risk: High")
  ∧ py "Risk: High" ≠ padded
  ∧ (ask Samples.env_insert_down Demo.q (after_miss Demo.q Demo.w_empty)).1
    = Ok (py "Risk: High")
  ∧ lost.1 = Raise down
  ∧ L1.get_from_l1 (l1 lost.2) Demo.q = None
  ∧ l2 lost.2 !! Demo.q = None.
Proof. vm_compute. by repeat split. Qed.

(** C3, amended: for a key missing from both tiers, when the pipeline
    succeeds and SQLite accepts the INSERT and the commit, [cached_ask]
    returns the answer of the pipeline with the white space at its two
    ends taken off, and nothing else changed, having written that text
    into L2 (INSERT OR REPLACE, commit) and only then into L1; both tiers
    then map the key to the returned value, and the row is committed.  An
    answer with no white space at either end is returned as it is. *)
Theorem cached_ask_write_through (env : Env) (q : str) (w : World)
    (answer : str) (w1 : World) :
  L1.get_from_l1 (l1 w) q = None →
  l2 w !! q = None →
  db_fault env (trace w ++ [EvL1Get q]) (EvSelect q) = None →
  ask env q (after_miss q w) = (Ok answer, w1) →
  db_fault env (trace w1) (EvUpsert q (strip answer)) = None →
  db_fault env (trace w1 ++ [EvUpsert q (strip answer)]) EvCommit = None →
  ∃ value w',
    cached_ask env q w = (Ok value, w')
    ∧ (∃ pre post, answer = pre ++ value ++ post
                   ∧ Forall (λ c, isspace c = true) pre
                   ∧ Forall (λ c, isspace c = true) post)
    ∧ (∀ c r, value = c :: r → isspace c = false)
    ∧ (∀ r c, value = r ++ [c] → isspace c = false)
    ∧ ((∀ c r, answer = c :: r → isspace c = false) →
       (∀ r c, answer = r ++ [c] → isspace c = false) → value = answer)
    ∧ trace w' = trace w1 ++ [EvUpsert q value; EvCommit; EvL1Set q value]
    ∧ l2 w' !! q = Some value
    ∧ durable w' !! q = Some value
    ∧ L1.get_from_l1 (l1 w') q = Some value.
Proof.
  intros Hl1 Hl2 Hse Hask Hup Hco. exists (strip answer). eexists. split.
  - rewrite (cached_ask_miss_ok env q w answer w1); [by apply resume_ok | | done].
    apply begin_miss; [by rewrite Hl1 | done | by rewrite Hl2].
  - destruct (strip_ends answer) as [Hfirst Hlast].
    split; [apply strip_decompose |]. split; [done |]. split; [done |].
    split; [apply strip_id |].
    cbn [l1 l2 durable trace]. split; [done |].
    split; [apply lookup_insert_eq |]. split; [apply lookup_insert_eq |].
    apply L1Facts.dict_get_set_eq.
Qed.

Lemma cached_ask_write_through_witness :
  ∃ value w',
    cached_ask Samples.env_padded Demo.q Demo.w_empty = (Ok value, w')
    ∧ (∃ pre post, [32; 32]%N ++ py "Risk: High" ++ [10]%N = pre ++ value ++ post
                   ∧ Forall (λ c, isspace c = true) pre
                   ∧ Forall (λ c, isspace c = true) post)
    ∧ (∀ c r, value = c :: r → isspace c = false)
    ∧ (∀ r c, value = r ++ [c] → isspace c = false)
    ∧ ((∀ c r, [32; 32]%N ++ py "Risk: High" ++ [10]%N = c :: r
               → isspace c = false) →
       (∀ r c, [32; 32]%N ++ py "Risk: High" ++ [10]%N = r ++ [c]
               → isspace c = false) →
       value = [32; 32]%N ++ py "Risk: High" ++ [10]%N)
    ∧ trace w'
      = trace (ask Samples.env_padded Demo.q (after_miss Demo.q Demo.w_empty)).2
        ++ [EvUpsert Demo.q value; EvCommit; EvL1Set Demo.q value]
    ∧ l2 w' !! Demo.q = Some value
    ∧ durable w' !! Demo.q = Some value
    ∧ L1.get_from_l1 (l1 w') Demo.q = Some value.
Proof.
  apply (cached_ask_write_through Samples.env_padded Demo.q Demo.w_empty
           ([32; 32]%N ++ py "Risk: High" ++ [10]%N));
    [reflexivity | reflexivity | reflexivity | | reflexivity | reflexivity].
  vm_compute. reflexivity.
Defined.

(** C4, as stated, fails: when the model answers with blanks, the first
    call succeeds with the empty string and the second call runs retrieval
    and generation again. *)
Lemma cached_ask_blank_answer_reruns_pipeline :
  let first := cached_ask Demo.env_blank Demo.q Demo.w_empty in
  let second := cached_ask Demo.env_blank Demo.q first.2 in
  first.1 = Ok [] ∧ second.1 = Ok []
  ∧ count is_search (trace first.2) = 1
  ∧ count is_generate (trace first.2) = 1
  ∧ count is_search (trace second.2) = 2
  ∧ count is_generate (trace second.2) = 2.
Proof. vm_compute. by repeat split. Qed.

(** C4, amended: after a call of [cached_ask] that returned a non-empty
    text, a second call for the same key returns the same text from L1,
    whatever the capabilities would now say: its only effect is the L1
    lookup, so neither retrieval nor generation is invoked. *)
Theorem cached_ask_idempotent (env : Env) (q : str) (w : World)
    (v : str) (w1 : World) :
  cached_ask env q w = (Ok v, w1) →
  v ≠ [] →
  ∀ env' : Env,
    cached_ask env' q w1
    = (Ok v, mkWorld (l1 w1) (l2 w1) (durable w1) (trace w1 ++ [EvL1Get q]))
    ∧ count is_pipeline (trace (cached_ask env' q w1).2)
      = count is_pipeline (trace w1).
Proof.
  intros Hfirst Hv env'.
  assert (Hsecond : cached_ask env' q w1
    = (Ok v, mkWorld (l1 w1) (l2 w1) (durable w1) (trace w1 ++ [EvL1Get q]))).
  { apply cached_ask_hit, begin_l1_hit.
    - by eapply cached_ask_ok_l1.
    - by apply truthy_nonempty. }
  split; [done |]. rewrite Hsecond. cbn [snd trace].
  rewrite count_app. unfold count at 2. simpl. lia.
Qed.

Lemma cached_ask_idempotent_witness :
  let w1 := (cached_ask Demo.env_ok Demo.q Demo.w_empty).2 in
  cached_ask Demo.env_gen_down Demo.q w1
  = (Ok (py "Risk: High"),
     mkWorld (l1 w1) (l2 w1) (durable w1) (trace w1 ++ [EvL1Get Demo.q]))
  ∧ count is_pipeline (trace (cached_ask Demo.env_gen_down Demo.q w1).2)
    = count is_pipeline (trace w1).
Proof.
  apply (cached_ask_idempotent Demo.env_ok Demo.q Demo.w_empty).
  - vm_compute. reflexivity.
  - by vm_compute.
Defined.







(** C10: a cached empty string counts as absent.  When both tiers hold the
    empty string for a key (as they do once a call has returned the empty
    string, for instance for an answer of blanks only), [cached_ask] goes
    past both entries and runs the whole pipeline again: after the two
    lookups its next effect is the retrieval for that key. *)
Theorem empty_value_is_a_miss (env : Env) (q : str) (w : World) :
  db_fault env (trace w ++ [EvL1Get q]) (EvSelect q) = None →
  (L1.get_from_l1 (l1 w) q = Some [] ∧ l2 w !! q = Some [])
  ∨ (∃ env0 w0, cached_ask env0 q w0 = (Ok [], w)) →
  cached_ask_begin env q w = (Ok None, after_miss q w)
  ∧ cached_ask env q w
    = (let* result := to_thread (ask env q) in
       cached_ask_resume env q result) (after_miss q w)
  ∧ ∃ evs, trace (cached_ask env q w).2
           = trace w ++ [EvL1Get q; EvSelect q; EvSearch q] ++ evs.
Proof.
  intros Hdb Hempty.
  assert (Hboth : L1.get_from_l1 (l1 w) q = Some [] ∧ l2 w !! q = Some []).
  { destruct Hempty as [?|(env0 & w0 & Hprev)]; [done |].
    by eapply cached_ask_empty_inv. }
  destruct Hboth as [Hl1 Hl2].
  assert (Hbegin : cached_ask_begin env q w = (Ok None, after_miss q w)).
  { apply begin_miss; [by rewrite Hl1 | done | by rewrite Hl2]. }
  split; [done |]. rewrite (cached_ask_miss env q w Hbegin). split; [done |].
  unfold bind, to_thread.
  destruct (ask env q (after_miss q w)) as [r w1] eqn:Hask.
  apply ask_frame in Hask as (_ & _ & evs & Htr & _).
  cbn [after_miss trace] in Htr.
  destruct (awaited r) as [result|e|].
  - destruct (resume_trace env q result w1) as [evs' Hres].
    exists (evs ++ evs'). rewrite Hres, Htr. by rewrite <- !app_assoc.
  - exists evs. cbn [snd]. rewrite Htr. by rewrite <- !app_assoc.
  - exists evs. cbn [snd]. rewrite Htr. by rewrite <- !app_assoc.
Qed.

Lemma empty_value_is_a_miss_witness :
  ∃ evs, trace (cached_ask Demo.env_blank Demo.q Demo.w_blank).2
         = trace Demo.w_blank
           ++ [EvL1Get Demo.q; EvSelect Demo.q; EvSearch Demo.q] ++ evs.
Proof.
  apply (empty_value_is_a_miss Demo.env_blank Demo.q Demo.w_blank).
  - reflexivity.
  - left. split; reflexivity.
Defined.

(** Stepped on its own, the coroutine of the scheduler is [cached_ask]. *)
Lemma cached_ask_alone env query w :
  (cached_ask env query w).1 ≠ Never →
  ask_co_run env 4 (AskStart query) w
  = (AskDone (cached_ask env query w).1, (cached_ask env query w).2).
Proof.
  unfold cached_ask, ask, bind, to_thread. cbn [ask_co_run ask_co_step].
  destruct (cached_ask_begin env query w) as [[[r|]|e|] w0];
    [done | | done | done].
  cbn [ask_co_run ask_co_step].
  destruct (search_faiss env query w0) as [[docs|e|] w1].
  - cbn [ask_co_run ask_co_step].
    destruct (generate_answer env query docs w1) as [r w2].
    cbn [ask_co_run ask_co_step].
    destruct (awaited r) as [result|e|]; [| done | done].
    pose proof (resume_returns env query result w2) as Hret.
    by destruct (cached_ask_resume env query result w2) as [[] w3].
  - cbn [ask_co_run ask_co_step]. destruct e as [kind msg].
    destruct kind; cbn [awaited]; done.
  - done.
Qed.

(** ** The L1 store *)

Lemma run_ops_app cap (d : L1.store) ops1 ops2 :
  L1.run_ops cap d (ops1 ++ ops2) = L1.run_ops cap (L1.run_ops cap d ops1) ops2.
Proof. unfold L1.run_ops. apply foldl_app. Qed.

(** C5: an L1 of capacity [cap] (at least 1, 100 in the program) never
    holds more than [cap] entries after a get or a put; putting [cap + 1]
    distinct keys into an empty L1 leaves exactly [cap] entries, the keys
    put after the first, in the order they were put: the first key is the
    one entry evicted; a get changes neither the dict nor, hence, what any
    later sequence of operations evicts. *)
Theorem l1_capacity_fifo (cap : nat) :
  0 < cap →
  (∀ (d : L1.store) o, length d ≤ cap → length (L1.apply_op cap d o) ≤ cap)
  ∧ (∀ ops, length (L1.run_ops cap [] ops) ≤ cap)
  ∧ (∀ val oldest ks, NoDup (oldest :: ks) → length ks = cap →
       let d := L1.put_all cap val [] (oldest :: ks) in
       length d = cap
       ∧ L1.keys d = ks
       ∧ L1.get_from_l1 d oldest = None
       ∧ ∀ k, k ∈ ks → L1.get_from_l1 d k = Some (val k))
  ∧ (∀ query w, l1 (get_from_l1 query w).2 = l1 w)
  ∧ (∀ (d : L1.store) ops1 k ops2,
       L1.run_ops cap d (ops1 ++ L1.Get k :: ops2)
       = L1.run_ops cap d (ops1 ++ ops2)).
Proof.
  intros Hcap. split; [|split; [|split; [|split]]].
  - intros d o. apply L1Facts.apply_op_length.
  - intros ops. apply L1Facts.run_ops_length. simpl. lia.
  - intros val oldest ks Hnd Hlen d. subst d.
    rewrite L1Facts.put_all_fifo by done.
    replace (length (oldest :: ks) - cap) with 1 by (simpl; lia).
    simpl. rewrite drop_0.
    apply NoDup_cons in Hnd as [Hfresh _].
    split; [by rewrite length_fmap |].
    split; [apply L1Facts.keys_map |].
    unfold L1.get_from_l1. split.
    + rewrite L1Facts.dict_get_map. by rewrite decide_False.
    + intros k Hk. rewrite L1Facts.dict_get_map. by rewrite decide_True.
  - done.
  - intros d ops1 k ops2. by rewrite !run_ops_app.
Qed.

Lemma l1_capacity_fifo_witness :
  let d := L1.put_all 2 (fun _ => py "v") []
             [Demo.key 0; Demo.key 1; Demo.key 2] in
  length d = 2
  ∧ L1.keys d = [Demo.key 1; Demo.key 2]
  ∧ L1.get_from_l1 d (Demo.key 0) = None
  ∧ ∀ k, k ∈ [Demo.key 1; Demo.key 2] → L1.get_from_l1 d k = Some (py "v").
Proof.
  apply (l1_capacity_fifo 2); [lia | | reflexivity].
  apply (bool_decide_unpack _). by vm_compute.
Defined.

(** C6 does not hold of [set_to_l1]: the eviction test looks at the size
    only.  With L1 full (100 entries) and the key ["q50"] among them, a put
    for ["q50"] evicts the oldest key ["q00"] and leaves 99 entries; and so
    does [cached_ask] for ["q50"] when the full L1 holds the empty string
    for it. *)
Theorem set_to_l1_overwrite_evicts :
  (let d := Demo.filled L1_CACHE_SIZE in
   length d = L1_CACHE_SIZE
   ∧ L1.get_from_l1 d (Demo.key 50) = Some (py "v")
   ∧ L1.get_from_l1 d (Demo.key 0) = Some (py "v")
   ∧ ∃ d', L1.set_to_l1 L1_CACHE_SIZE d (Demo.key 50) (py "new") = Ok d'
           ∧ L1.get_from_l1 d' (Demo.key 50) = Some (py "new")
           ∧ L1.get_from_l1 d' (Demo.key 0) = None
           ∧ length d' = 99)
  ∧ (let w := Demo.w_full_blank in
     let after := cached_ask Demo.env_ok (Demo.key 50) w in
     length (l1 w) = L1_CACHE_SIZE
     ∧ L1.get_from_l1 (l1 w) (Demo.key 50) = Some []
     ∧ L1.get_from_l1 (l1 w) (Demo.key 0) = Some (py "v")
     ∧ after.1 = Ok (py "Risk: High")
     ∧ L1.get_from_l1 (l1 after.2) (Demo.key 50) = Some (py "Risk: High")
     ∧ L1.get_from_l1 (l1 after.2) (Demo.key 0) = None
     ∧ length (l1 after.2) = 99).
Proof.
  split.
  - vm_compute. repeat split. eexists. by repeat split.
  - by vm_compute.
Qed.

(** ** Schedules *)

Section Schedules.

Variable env : Env.

Lemma step_eq i st t t' w' :
  tasks st !! i = Some t →
  task_step env t (world st) = Some (t', w') →
  step env i st = Some (mkSys w' (<[i := t']> (tasks st))).
Proof. intros Ht Hstep. unfold step. by rewrite Ht, Hstep. Qed.

Lemma insert_middle {A} (pre post : list A) x y :
  <[length pre := y]> (pre ++ x :: post) = pre ++ y :: post.
Proof. rewrite insert_app_r_alt by lia. by rewrite Nat.sub_diag. Qed.

Lemma run_app sched1 sched2 st :
  run env (sched1 ++ sched2) st
  = match run env sched1 st with
    | Some st' => run env sched2 st'
    | None => None
    end.
Proof.
  revert st. induction sched1 as [|i sched1 IH]; intros st; simpl; [done |].
  by destruct (step env i st).
Qed.

(** Stepping once, in turn, each task of a block of tasks that all
    satisfy [A], under a world invariant [J], with a counter [f] that
    every such step raises by [δ]. *)
Lemma run_block (A B : Task → Prop) (J : World → Prop)
    (f : World → nat) (δ : nat) :
  (∀ t w, A t → J w →
     ∃ t' w', task_step env t w = Some (t', w')
              ∧ B t' ∧ J w' ∧ f w' = f w + δ) →
  ∀ todo pre post w,
    Forall A todo → J w →
    ∃ todo' w',
      run env (seq (length pre) (length todo)) (mkSys w (pre ++ todo ++ post))
      = Some (mkSys w' (pre ++ todo' ++ post))
      ∧ Forall B todo' ∧ length todo' = length todo
      ∧ J w' ∧ f w' = f w + δ * length todo.
Proof.
  intros Hstep todo.
  induction todo as [|t todo IH]; intros pre post w HA HJ.
  - exists [], w. simpl. repeat split; [done.. | lia].
  - apply Forall_cons in HA as [HAt HA].
    destruct (Hstep t w HAt HJ) as (t' & w' & Ht & HB & HJ' & Hf).
    destruct (IH (pre ++ [t']) post w' HA HJ')
      as (todo' & w'' & Hrun & HB' & Hlen & HJ'' & Hf').
    exists (t' :: todo'), w''.
    rewrite length_app in Hrun. simpl in Hrun.
    replace (length pre + 1) with (S (length pre)) in Hrun by lia.
    rewrite <- !app_assoc in Hrun. simpl in Hrun.
    split; [|repeat split; [by constructor | simpl; lia | done | simpl; lia]].
    simpl.
    rewrite (step_eq (length pre) _ t t' w'); simpl.
    + by rewrite insert_middle.
    + by rewrite list_lookup_middle.
    + done.
Qed.

(** The same for a system that consists of the block alone. *)
Lemma run_all (A B : Task → Prop) (J : World → Prop)
    (f : World → nat) (δ : nat) :
  (∀ t w, A t → J w →
     ∃ t' w', task_step env t w = Some (t', w')
              ∧ B t' ∧ J w' ∧ f w' = f w + δ) →
  ∀ todo w,
    Forall A todo → J w →
    ∃ todo' w',
      run env (seq 0 (length todo)) (mkSys w todo) = Some (mkSys w' todo')
      ∧ Forall B todo' ∧ length todo' = length todo
      ∧ J w' ∧ f w' = f w + δ * length todo.
Proof.
  intros Hstep todo w HA HJ.
  destruct (run_block A B J f δ Hstep todo [] [] w HA HJ)
    as (todo' & w' & Hrun & Hrest).
  simpl in Hrun. rewrite !app_nil_r in Hrun. by exists todo', w'.
Qed.

(** A coroutine that has not returned can take a step, unless it waits
    for a future that is never resolved. *)
Lemma ask_co_step_enabled c w :
  ask_live c →
  (∃ r, c = AskDone r) ∨ ∃ c' w', ask_co_step env c w = Some (c', w').
Proof.
  destruct c as [query|query [|docs|r]|r];
    cbn [ask_co_step ask_live thread_live].
  - intros _. right. pose proof (begin_returns env query w) as Hret.
    destruct (cached_ask_begin env query w) as [[[r|]|e|] w'];
      [by do 2 eexists.. | done].
  - intros _. right.
    destruct (search_faiss env query w) as [[docs|e|] w']; by do 2 eexists.
  - intros _. right.
    destruct (generate_answer env query docs w). by do 2 eexists.
  - intros Hlive. right.
    destruct (awaited r) as [result|e|]; [| by do 2 eexists | done].
    pose proof (resume_returns env query result w) as Hret.
    destruct (cached_ask_resume env query result w) as [[v|e|] w'];
      [by do 2 eexists.. | done].
  - intros _. left. by eexists.
Qed.

End Schedules.

(** ** Concurrent calls of [cached_ask] *)

Lemma map_replicate {A B} (f : A → B) n x :
  List.map f (replicate n x) = replicate n (f x).
Proof. induction n; simpl; [done | by f_equal]. Qed.

Lemma Forall_eq_replicate {A} (l : list A) x :
  Forall (λ y, y = x) l → l = replicate (length l) x.
Proof. induction 1; simpl; [done | by f_equal]. Qed.

Lemma in_flight_all key w (ts : list Task) :
  Forall (λ t, awaits_key key t = true) ts →
  in_flight key (mkSys w ts) = length ts.
Proof.
  unfold in_flight. simpl. induction 1 as [|t ts Ht _ IH]; simpl; [done |].
  rewrite Ht. simpl. by rewrite IH.
Qed.

Lemma returned_replicate w n r i :
  i < n → returned (mkSys w (replicate n (TAsk (AskDone r)))) i = Some r.
Proof.
  intros Hi. unfold returned. simpl. by rewrite lookup_replicate_2.
Qed.

Section SingleFlight.

Variable env : Env.
Variable q : str.

(** Every call finds both tiers without a value and reaches its await,
    whatever is already outstanding. *)
Lemma begin_all w0 n w :
  (∀ t stmt, db_fault env t stmt = None) →
  truthy_opt (L1.get_from_l1 (l1 w0) q) = false →
  truthy_opt (l2 w0 !! q) = false →
  l1 w = l1 w0 → l2 w = l2 w0 →
  ∃ w', run env (seq 0 n) (mkSys w (replicate n (TAsk (AskStart q))))
        = Some (mkSys w' (replicate n (TAsk (AskAwait q ThQueued))))
        ∧ l1 w' = l1 w0 ∧ l2 w' = l2 w0
        ∧ count is_search (trace w') = count is_search (trace w)
        ∧ count is_generate (trace w') = count is_generate (trace w).
Proof.
  intros db_ok Hl1 Hl2 Hw1 Hw2.
  destruct (run_all env
    (λ t, t = TAsk (AskStart q)) (λ t, t = TAsk (AskAwait q ThQueued))
    (λ w', l1 w' = l1 w0 ∧ l2 w' = l2 w0
           ∧ count is_search (trace w') = count is_search (trace w)
           ∧ count is_generate (trace w') = count is_generate (trace w))
    (λ _, 0) 0) with (todo := replicate n (TAsk (AskStart q))) (w := w)
    as (todo' & w' & Hrun & HB & Hlen & HJ & _).
  - intros t w1 -> (E1 & E2 & Cs & Cg).
    exists (TAsk (AskAwait q ThQueued)), (after_miss q w1).
    split; [|split; [done | split; [|done]]].
    + cbn [task_step ask_co_step].
      rewrite begin_miss; [done | by rewrite E1 | apply db_ok | by rewrite E2].
    + cbn [after_miss l1 l2 trace]. rewrite !count_app.
      unfold count in *. simpl. repeat split; [done | done | lia | lia].
  - by apply Forall_replicate.
  - done.
  - rewrite length_replicate in Hrun, Hlen.
    apply Forall_eq_replicate in HB. rewrite Hlen in HB. subst todo'.
    by exists w'.
Qed.

(** Every worker thread makes its own retrieval call. *)
Lemma search_all (todo : list Task) w :
  (∀ t, ∃ docs, hits env t q = Ok docs) →
  Forall (λ t, t = TAsk (AskAwait q ThQueued)) todo →
  ∃ todo' w',
    run env (seq 0 (length todo)) (mkSys w todo) = Some (mkSys w' todo')
    ∧ Forall (λ t, ∃ docs, t = TAsk (AskAwait q (ThSearched docs))) todo'
    ∧ length todo' = length todo
    ∧ count is_generate (trace w') = count is_generate (trace w)
    ∧ count is_search (trace w') = count is_search (trace w) + length todo.
Proof.
  intros Hhits Htodo.
  destruct (run_all env
    (λ t, t = TAsk (AskAwait q ThQueued))
    (λ t, ∃ docs, t = TAsk (AskAwait q (ThSearched docs)))
    (λ w', count is_generate (trace w') = count is_generate (trace w))
    (λ w', count is_search (trace w')) 1) with (todo := todo) (w := w)
    as (todo' & w' & Hrun & HB & Hlen & HJ & Hf); [| done | done |].
  - intros t w1 -> Cg. destruct (Hhits (trace w1)) as [docs Hdocs].
    exists (TAsk (AskAwait q (ThSearched docs))).
    eexists. split; [|split; [by exists docs | split]].
    + cbn [task_step ask_co_step]. by rewrite search_faiss_eq, Hdocs.
    + cbn [trace fst snd]. rewrite count_app. unfold count in *. simpl. lia.
    + cbn [trace fst snd]. rewrite count_app. unfold count in *. simpl. lia.
  - exists todo', w'. repeat split; [done.. | lia].
Qed.

(** Every worker thread makes its own generation call. *)
Lemma generate_all (todo : list Task) w :
  Forall (λ t, ∃ docs, t = TAsk (AskAwait q (ThSearched docs))) todo →
  ∃ todo' w',
    run env (seq 0 (length todo)) (mkSys w todo) = Some (mkSys w' todo')
    ∧ Forall (λ t, ∃ r, t = TAsk (AskAwait q (ThFinished r))) todo'
    ∧ length todo' = length todo
    ∧ count is_search (trace w') = count is_search (trace w)
    ∧ count is_generate (trace w') = count is_generate (trace w) + length todo.
Proof.
  intros Htodo.
  destruct (run_all env
    (λ t, ∃ docs, t = TAsk (AskAwait q (ThSearched docs)))
    (λ t, ∃ r, t = TAsk (AskAwait q (ThFinished r)))
    (λ w', count is_search (trace w') = count is_search (trace w))
    (λ w', count is_generate (trace w')) 1) with (todo := todo) (w := w)
    as (todo' & w' & Hrun & HB & Hlen & HJ & Hf); [| done | done |].
  - intros t w1 [docs ->] Cs. do 2 eexists.
    split; [|split; [by eexists | split]].
    + cbn [task_step ask_co_step]. by rewrite generate_answer_eq.
    + cbn [trace fst snd]. rewrite count_app. unfold count in *. simpl. lia.
    + cbn [trace fst snd]. rewrite count_app. unfold count in *. simpl. lia.
  - exists todo', w'. repeat split; [done.. | lia].
Qed.

(** When the model gives one answer [a] whatever the history, every
    worker thread ends with it. *)
Lemma generate_all_const (todo : list Task) w a :
  (∀ t p, generate_content env t p = Ok a) →
  Forall (λ t, ∃ docs, t = TAsk (AskAwait q (ThSearched docs))) todo →
  ∃ w', run env (seq 0 (length todo)) (mkSys w todo)
        = Some (mkSys w' (replicate (length todo)
                            (TAsk (AskAwait q (ThFinished (Ok a)))))).
Proof.
  intros Hgen Htodo.
  destruct (run_all env
    (λ t, ∃ docs, t = TAsk (AskAwait q (ThSearched docs)))
    (λ t, t = TAsk (AskAwait q (ThFinished (Ok a))))
    (λ _, True) (λ _, 0) 0) with (todo := todo) (w := w)
    as (todo' & w' & Hrun & HB & Hlen & _); [| done | done |].
  - intros t w1 [docs ->] _. do 2 eexists.
    split; [|done].
    cbn [task_step ask_co_step]. by rewrite generate_answer_eq, Hgen.
  - apply Forall_eq_replicate in HB. rewrite Hlen in HB. subst todo'.
    by exists w'.
Qed.

(** Every coroutine resumes with the answer of its own thread and writes
    it through. *)
Lemma resume_all n w a :
  (∀ t stmt, db_fault env t stmt = None) →
  ∃ w', run env (seq 0 n)
          (mkSys w (replicate n (TAsk (AskAwait q (ThFinished (Ok a))))))
        = Some (mkSys w' (replicate n (TAsk (AskDone (Ok (strip a)))))).
Proof.
  intros db_ok.
  destruct (run_all env
    (λ t, t = TAsk (AskAwait q (ThFinished (Ok a))))
    (λ t, t = TAsk (AskDone (Ok (strip a))))
    (λ _, True) (λ _, 0) 0)
    with (todo := replicate n (TAsk (AskAwait q (ThFinished (Ok a)))))
         (w := w)
    as (todo' & w' & Hrun & HB & Hlen & _).
  - intros t w1 -> _. do 2 eexists. split; [|done].
    cbn [task_step ask_co_step awaited]. by rewrite resume_ok by apply db_ok.
  - by apply Forall_replicate.
  - done.
  - rewrite length_replicate in Hrun, Hlen.
    apply Forall_eq_replicate in HB. rewrite Hlen in HB. subst todo'.
    by exists w'.
Qed.

End SingleFlight.

(** C1, as stated, fails: two calls for one uncached key, both started
    before either worker thread has run, are both in flight for that key
    and each call invokes the model (the two callers then return the two
    different answers of a model that counts its calls); ten such calls
    invoke the model ten times. *)
Lemma concurrent_calls_each_run_the_pipeline :
  let two := ask_all Demo.w_empty [Demo.q; Demo.q] in
  let ten := ask_all Demo.w_empty (replicate 10 Demo.q) in
  in_flight Demo.q <$> run Demo.env_counting [0; 1] two = Some 2
  ∧ (∃ st, run Demo.env_counting [0; 1; 0; 1; 0; 1; 0; 1] two = Some st
           ∧ count is_generate (trace (world st)) = 2
           ∧ returned st 0 = Some (Ok (py "answer 0"))
           ∧ returned st 1 = Some (Ok (py "answer 1")))
  ∧ (∃ st, run Demo.env_ok (seq 0 10 ++ seq 0 10 ++ seq 0 10 ++ seq 0 10) ten
           = Some st
           ∧ all_done st = true
           ∧ count is_generate (trace (world st)) = 10).
Proof.
  split; [by vm_compute |]. split; eexists; (split; [by vm_compute |]);
    by vm_compute.
Qed.

(** C1, amended: [cached_ask] shares nothing between concurrent calls.  A
    call that finds no non-empty value for its key in either tier submits
    its own pipeline run, whatever is already outstanding for that key: [n]
    calls for one such key, all started before any of them resumes, are
    [n] executions in flight together and cause [n] retrieval and [n]
    generation invocations; each caller returns the stripped answer of its
    own run, so all [n] return the same value when the model gives the same
    answer every time. *)
Theorem cached_ask_no_single_flight (env : Env) (q : str) (w : World) (n : nat) :
  truthy_opt (L1.get_from_l1 (l1 w) q) = false →
  truthy_opt (l2 w !! q) = false →
  (∀ t stmt, db_fault env t stmt = None) →
  (∀ t, ∃ docs, hits env t q = Ok docs) →
  let calls := ask_all w (replicate n q) in
  (∃ st, run env (seq 0 n) calls = Some st ∧ in_flight q st = n)
  ∧ (∃ st, run env (seq 0 n ++ seq 0 n ++ seq 0 n) calls = Some st
           ∧ count is_search (trace (world st)) = count is_search (trace w) + n
           ∧ count is_generate (trace (world st))
             = count is_generate (trace w) + n)
  ∧ (∀ a, (∀ t p, generate_content env t p = Ok a) →
       ∃ st, run env (seq 0 n ++ seq 0 n ++ seq 0 n ++ seq 0 n) calls = Some st
             ∧ ∀ i, i < n → returned st i = Some (Ok (strip a))).
Proof.
  intros Hl1 Hl2 Hdb Hhits calls. subst calls.
  unfold ask_all. rewrite map_replicate.
  destruct (begin_all env q w n w Hdb Hl1 Hl2 eq_refl eq_refl)
    as (w1 & Hrun1 & _ & _ & Cs1 & Cg1).
  destruct (search_all env q (replicate n (TAsk (AskAwait q ThQueued))) w1 Hhits)
    as (todo2 & w2 & Hrun2 & HB2 & Hlen2 & Cg2 & Cs2);
    [by apply Forall_replicate |].
  rewrite length_replicate in Hrun2, Hlen2, Cs2.
  split; [|split].
  - eexists. split; [exact Hrun1 |].
    rewrite in_flight_all, length_replicate; [done |].
    apply Forall_replicate. simpl. by apply bool_decide_eq_true_2.
  - destruct (generate_all env q todo2 w2 HB2)
      as (todo3 & w3 & Hrun3 & _ & _ & Cs3 & Cg3).
    rewrite Hlen2 in Hrun3, Cg3.
    eexists. split.
    + rewrite run_app, Hrun1. cbv beta iota.
      rewrite run_app, Hrun2. exact Hrun3.
    + simpl. lia.
  - intros a Hgen.
    destruct (generate_all_const env q todo2 w2 a Hgen HB2) as (w3 & Hrun3).
    rewrite Hlen2 in Hrun3.
    destruct (resume_all env q n w3 a Hdb) as (w4 & Hrun4).
    eexists. split.
    + rewrite run_app, Hrun1. cbv beta iota.
      rewrite run_app, Hrun2. cbv beta iota.
      rewrite run_app, Hrun3. exact Hrun4.
    + intros i Hi. by apply returned_replicate.
Qed.

Lemma cached_ask_no_single_flight_witness :
  ∃ st, run Demo.env_ok (seq 0 10) (ask_all Demo.w_empty (replicate 10 Demo.q))
        = Some st
        ∧ in_flight Demo.q st = 10.
Proof.
  apply (cached_ask_no_single_flight Demo.env_ok Demo.q Demo.w_empty 10).
  - reflexivity.
  - reflexivity.
  - intros t stmt. reflexivity.
  - intros t. eexists. reflexivity.
Defined.

(** ** The fan-out of [/updates] *)

Section FanOut.

Variable env : Env.

(** What a step of [cached_ask] can lead to. *)
Lemma ask_co_step_next c w c' w' :
  ask_co_step env c w = Some (c', w') →
  ask_fuel c' < ask_fuel c
  ∧ ((∃ r, c' = AskDone r) ∨ (∃ query th, c' = AskAwait query th)).
Proof.
  destruct c as [query|query [|docs|r]|r]; cbn [ask_co_step].
  - destruct (cached_ask_begin env query w) as [[[r|]|e|] w0]; [| | |done];
      intros [= <- <-]; simpl; (split; [lia |]); eauto.
  - destruct (search_faiss env query w) as [[docs|e|] w0];
      intros [= <- <-]; simpl; (split; [lia |]); eauto.
  - destruct (generate_answer env query docs w) as [r w0].
    intros [= <- <-]; simpl; (split; [lia |]); eauto.
  - destruct (awaited r) as [result|e|]; [| |done].
    + destruct (cached_ask_resume env query result w) as [[v|e|] w0];
        [| |done]; intros [= <- <-]; simpl; (split; [lia |]); eauto.
    + intros [= <- <-]; simpl; (split; [lia |]); eauto.
  - done.
Qed.

Lemma upd_continue_wf item c c' w w' :
  ask_co_step env c w = Some (c', w') →
  upd_wf item (upd_continue item (c', w')).1
  ∧ upd_fuel (upd_continue item (c', w')).1 = ask_fuel c'.
Proof.
  intros Hstep. apply ask_co_step_next in Hstep as [_ [[r ->]|(p & th & ->)]].
  - simpl. split; [by exists r | done].
  - simpl. split; [|done]. split; [done | by exists p, th].
Qed.

(** A step keeps a task on its feed entry and uses up fuel. *)
Lemma upd_co_step_wf item u w u' w' :
  upd_wf item u →
  upd_co_step env u w = Some (u', w') →
  upd_wf item u' ∧ upd_fuel u' < upd_fuel u.
Proof.
  assert (Hask : ∀ c c' w0,
    ask_co_step env c w = Some (c', w0) →
    upd_continue item (c', w0) = (u', w') →
    upd_wf item u' ∧ upd_fuel u' < ask_fuel c).
  { intros c c' w0 Hstep Hc.
    destruct (upd_continue_wf item _ _ _ _ Hstep) as [Hwf Hfuel].
    apply ask_co_step_next in Hstep as [Hlt _].
    rewrite Hc in Hwf, Hfuel. simpl in *. split; [done | lia]. }
  destruct u as [i|i [|fetched]|i c|out]; cbn [upd_co_step upd_wf].
  - intros -> [= <- <-]. simpl. split; [done | lia].
  - intros -> [= <- <-]. simpl. split; [done | lia].
  - intros ->. set (prompt := update_prompt item (content_of (awaited fetched))).
    assert (Hgo : option_map (upd_continue item)
                    (ask_co_step env (AskStart prompt) w) = Some (u', w') →
                  upd_wf item u' ∧ upd_fuel u' < upd_fuel (UpdFetch item (FFinished fetched))).
    { destruct (ask_co_step env (AskStart prompt) w) as [[c' w0]|] eqn:Hstep;
        [|done].
      cbn [option_map]. intros Hcont.
      assert (Hc : upd_continue item (c', w0) = (u', w')) by congruence.
      destruct (Hask _ _ _ Hstep Hc) as [Hwf Hlt]. simpl in *.
      split; [done | lia]. }
    subst prompt. by destruct (awaited fetched).
  - intros [-> (p & th & ->)].
    destruct (ask_co_step env (AskAwait p th) w) as [[c' w0]|] eqn:Hstep;
      [|done].
    cbn [option_map]. intros Hcont.
    assert (Hc : upd_continue item (c', w0) = (u', w')) by congruence.
    by apply (Hask _ _ _ Hstep Hc).
  - done.
Qed.

(** A task that has not returned can take a step, unless it waits for a
    future that is never resolved. *)
Lemma upd_co_step_enabled item u w :
  upd_wf item u → upd_live u →
  (∃ out, u = UpdDone out) ∨ ∃ u' w', upd_co_step env u w = Some (u', w').
Proof.
  destruct u as [i|i [|fetched]|i c|out]; cbn [upd_co_step upd_wf upd_live].
  - intros _ _. right. by do 2 eexists.
  - intros _ _. right. by do 2 eexists.
  - intros _ Hlive. right.
    set (prompt := update_prompt i (content_of (awaited fetched))).
    assert (Hgo : ∃ u' w', option_map (upd_continue i)
                             (ask_co_step env (AskStart prompt) w)
                           = Some (u', w')).
    { destruct (ask_co_step_enabled env (AskStart prompt) w)
        as [[r ?]|(c' & w' & ->)]; [done.. |].
      cbn [option_map]. destruct (upd_continue i (c', w')). by do 2 eexists. }
    subst prompt. by destruct (awaited fetched).
  - intros [_ (p & th & ->)] Hlive. right.
    destruct (ask_co_step_enabled env (AskAwait p th) w)
      as [[r ?]|(c' & w' & ->)]; [done.. |].
    cbn [option_map]. destruct (upd_continue i (c', w')). by do 2 eexists.
  - intros _ _. left. by eexists.
Qed.

Lemma step_inv i st st' :
  step env i st = Some st' →
  ∃ t t' w', tasks st !! i = Some t
             ∧ task_step env t (world st) = Some (t', w')
             ∧ st' = mkSys w' (<[i := t']> (tasks st)).
Proof.
  unfold step. destruct (tasks st !! i) as [t|]; [|done].
  destruct (task_step env t (world st)) as [[t' w']|] eqn:Hstep; [|done].
  intros [= <-]. by exists t, t', w'.
Qed.

(** No step of a task changes another task. *)
Lemma step_other i st st' j :
  step env i st = Some st' → j ≠ i → tasks st' !! j = tasks st !! j.
Proof.
  intros Hstep Hj. apply step_inv in Hstep as (t & t' & w' & _ & _ & ->).
  by apply list_lookup_insert_ne.
Qed.

Lemma task_step_for item t w t' w' :
  upd_for item t →
  task_step env t w = Some (t', w') →
  upd_for item t' ∧ task_fuel t' < task_fuel t.
Proof.
  destruct t as [c|u]; [done |]. cbn [upd_for task_step].
  intros Hwf. destruct (upd_co_step env u w) as [[u' w0]|] eqn:Hstep; [|done].
  cbn [option_map]. intros [= <- <-]. cbn [upd_for task_fuel fst].
  by eapply upd_co_step_wf.
Qed.

(** An invariant of the tasks, entry by entry, that every step of a task
    keeps, together with an invariant of the world, is kept by every
    schedule. *)
Lemma run_invariant {A} (I : A → Task → Prop) (J : World → Prop) :
  (∀ a t w t' w', I a t → J w → task_step env t w = Some (t', w') →
                  I a t' ∧ J w') →
  ∀ (items : list A) sched st st',
    Forall2 I items (tasks st) → J (world st) →
    run env sched st = Some st' →
    Forall2 I items (tasks st') ∧ J (world st').
Proof.
  intros Hkeep items sched.
  induction sched as [|i sched IH]; intros st st' Hfor HJ; simpl.
  - by intros [= <-].
  - destruct (step env i st) as [st1|] eqn:Hstep; [|done].
    apply step_inv in Hstep as (t & t' & w' & Ht & Htask & ->).
    destruct (Forall2_lookup_r _ _ _ _ _ Hfor Ht) as (a & Ha & HI).
    destruct (Hkeep a t (world st) t' w' HI HJ Htask) as [HI' HJ'].
    apply IH; [|done]. cbn [tasks].
    rewrite <- (list_insert_id items i a Ha). by apply Forall2_insert.
Qed.

Lemma run_for updates sched st st' :
  Forall2 upd_for updates (tasks st) →
  run env sched st = Some st' →
  Forall2 upd_for updates (tasks st').
Proof.
  intros Hfor Hrun.
  apply (run_invariant upd_for (λ _, True)) with (items := updates) in Hrun
    as [? _]; [done | | done | done].
  intros a t w t' w' Ha _ Hstep. split; [|done].
  by apply (task_step_for a t w t' w').
Qed.

Lemma gather_start_for w updates :
  Forall2 upd_for updates (tasks (gather_start w updates)).
Proof. simpl. induction updates; simpl; by constructor. Qed.

(** Once every coroutine has returned, [gather] has one output per feed
    entry, in the order of the entries. *)
Lemma gather_result_for updates (ts : list Task) :
  Forall2 upd_for updates ts →
  forallb task_done ts = true →
  ∃ outs, gather_result ts = Some outs
          ∧ Forall2 (λ item out, ∃ r, out = update_output item r) updates outs.
Proof.
  induction 1 as [|item t updates ts Hwf _ IH]; simpl.
  - intros _. exists []. by split.
  - intros [Hdone Hrest]%andb_prop. destruct (IH Hrest) as (outs & -> & Houts).
    destruct t as [c|[| | |out]]; try done.
    exists (out :: outs). split; [done |]. by constructor.
Qed.

(** A delivered result means that every coroutine has returned. *)
Lemma gather_result_done (ts : list Task) outs :
  gather_result ts = Some outs → forallb task_done ts = true.
Proof.
  revert outs. induction ts as [|t ts IH]; intros outs; simpl; [done |].
  destruct t as [c|[| | |out]]; try done.
  destruct (gather_result ts) as [outs'|] eqn:Hrest; [|done].
  intros _. by rewrite (IH outs').
Qed.

(** *** Worker threads that resolve their futures *)

Lemma awaited_never_raise {A} (e : exn) :
  awaited (@Raise A e) = Never ↔ exn_kind e = StopIteration.
Proof. destruct e as [[] msg]; simpl; split; done. Qed.

Lemma awaited_retype {A B} (e : exn) :
  awaited (@Raise A e) ≠ Never → awaited (@Raise B e) ≠ Never.
Proof. rewrite !awaited_never_raise. done. Qed.

Lemma mapM_py_index_awaited {A} (l : list A) (ixs : list Z) :
  awaited (mapM (py_index l) ixs) ≠ Never.
Proof.
  assert (Hix : ∀ i, (∃ a, py_index l i = Ok a)
                     ∨ ∃ m, py_index l i = Raise (Exn IndexError m)).
  { intros i. unfold py_index.
    destruct (_ || _)%bool; [right; by eexists |].
    destruct (l !! _); [left | right]; by eexists. }
  induction ixs as [|i ixs IH]; simpl; [done |].
  destruct (Hix i) as [[a ->]|[m ->]]; [|done].
  by destruct (mapM (py_index l) ixs) as [bs|[[] msg]|].
Qed.

Section Responsive.

Hypothesis Hresp : responsive env.

Lemma hits_awaited t q : awaited (hits env t q) ≠ Never.
Proof.
  destruct Hresp as (Hsearch & _ & _). specialize (Hsearch t q).
  unfold hits. destruct (faiss_search env t q) as [indices|e|]; [| |done].
  - apply mapM_py_index_awaited.
  - revert Hsearch. apply awaited_retype.
Qed.

Lemma ask_co_step_live c w c' w' :
  ask_co_step env c w = Some (c', w') → ask_live c'.
Proof.
  destruct c as [query|query [|docs|r]|r]; cbn [ask_co_step].
  - destruct (cached_ask_begin env query w) as [[[r|]|e|] w0]; [| | |done];
      by intros [= <- <-].
  - rewrite search_faiss_eq. pose proof (hits_awaited (trace w) query) as Hh.
    destruct (hits env (trace w) query) as [docs|e|]; [| |done];
      intros [= <- <-]; [done |].
    cbn [ask_live thread_live]. revert Hh. apply awaited_retype.
  - rewrite generate_answer_eq. intros [= <- <-].
    cbn [ask_live thread_live]. apply Hresp.
  - destruct (awaited r) as [result|e|]; [| |done].
    + destruct (cached_ask_resume env query result w) as [[v|e|] w0];
        [| |done]; by intros [= <- <-].
    + by intros [= <- <-].
  - done.
Qed.

Lemma upd_continue_live item c c' w w' :
  ask_co_step env c w = Some (c', w') →
  upd_live (upd_continue item (c', w')).1.
Proof.
  intros Hstep. apply ask_co_step_live in Hstep. by destruct c'.
Qed.

Lemma upd_co_step_live u w u' w' :
  upd_co_step env u w = Some (u', w') → upd_live u'.
Proof.
  assert (Hask : ∀ item c,
    option_map (upd_continue item) (ask_co_step env c w) = Some (u', w') →
    upd_live u').
  { intros item c.
    destruct (ask_co_step env c w) as [[c' w0]|] eqn:Hstep; [|done].
    cbn [option_map]. intros Hcont.
    assert (Hc : upd_continue item (c', w0) = (u', w')) by congruence.
    pose proof (upd_continue_live item _ _ _ _ Hstep) as Hlive.
    by rewrite Hc in Hlive. }
  destruct u as [i|i [|fetched]|i c|out]; cbn [upd_co_step].
  - by intros [= <- <-].
  - intros [= <- <-]. cbn [upd_live]. apply Hresp.
  - destruct (awaited fetched); [apply Hask.. | done].
  - apply Hask.
  - done.
Qed.

Lemma task_step_live item t w t' w' :
  upd_for item t ∧ task_live t →
  task_step env t w = Some (t', w') →
  (upd_for item t' ∧ task_live t') ∧ task_fuel t' < task_fuel t.
Proof.
  intros [Hfor Hlive] Hstep.
  destruct (task_step_for item t w t' w' Hfor Hstep) as [Hfor' Hlt].
  split; [|done]. split; [done |].
  destruct t as [c|u]; [done |]. cbn [task_step] in Hstep.
  destruct (upd_co_step env u w) as [[u' w0]|] eqn:Hu; [|done].
  injection Hstep as <- <-. by eapply upd_co_step_live.
Qed.

Lemma run_live updates sched st st' :
  Forall2 (λ item t, upd_for item t ∧ task_live t) updates (tasks st) →
  run env sched st = Some st' →
  Forall2 (λ item t, upd_for item t ∧ task_live t) updates (tasks st').
Proof.
  intros Hfor Hrun.
  apply (run_invariant (λ item t, upd_for item t ∧ task_live t) (λ _, True))
    with (items := updates) in Hrun as [? _]; [done | | done | done].
  intros a t w t' w' Ha _ Hstep. split; [|done].
  by apply (task_step_live a t w t' w').
Qed.

(** One task can be stepped until it has returned. *)
Lemma finish_one item fuel : ∀ t w pre post,
  upd_for item t ∧ task_live t → task_fuel t ≤ fuel →
  ∃ k t' w',
    run env (replicate k (length pre)) (mkSys w (pre ++ t :: post))
    = Some (mkSys w' (pre ++ t' :: post))
    ∧ task_done t' = true.
Proof.
  induction fuel as [|fuel IH]; intros t w pre post [Hfor Hlive] Hfuel;
    (destruct t as [c|u]; [done |]);
    (destruct (upd_co_step_enabled item u w Hfor Hlive)
       as [[out ->]|(u' & w' & Hstep)];
     [exists 0, (TUpd (UpdDone out)), w; by split |]);
    (assert (Htask : task_step env (TUpd u) w = Some (TUpd u', w'))
       by (simpl; by rewrite Hstep));
    destruct (task_step_live item _ w _ w' (conj Hfor Hlive) Htask)
      as [Hinv' Hlt].
  - simpl in *. lia.
  - destruct (IH (TUpd u') w' pre post Hinv') as (k & t' & w'' & Hrun & Hfin);
      [simpl in *; lia |].
    exists (S k), t', w''. split; [|done].
    simpl. rewrite (step_eq env (length pre) _ (TUpd u) (TUpd u') w').
    + simpl. by rewrite insert_middle.
    + simpl. by rewrite list_lookup_middle.
    + done.
Qed.

(** So can every task of a block, one after the other. *)
Lemma finish_block : ∀ todo updates pre post w,
  Forall2 (λ item t, upd_for item t ∧ task_live t) updates todo →
  ∃ sched todo' w',
    run env sched (mkSys w (pre ++ todo ++ post))
    = Some (mkSys w' (pre ++ todo' ++ post))
    ∧ forallb task_done todo' = true.
Proof.
  induction todo as [|t todo IH]; intros updates pre post w Hfor.
  - by exists [], [], w.
  - apply Forall2_cons_inv_r in Hfor as (item & updates' & Ht & Hfor & ->).
    destruct (finish_one item (task_fuel t) t w pre (todo ++ post) Ht)
      as (k & t' & w' & Hrun & Hdone); [done |].
    destruct (IH updates' (pre ++ [t']) post w' Hfor)
      as (sched & todo' & w'' & Hrun' & Hdone').
    exists (replicate k (length pre) ++ sched), (t' :: todo'), w''.
    split; [|simpl; by rewrite Hdone, Hdone'].
    rewrite run_app. simpl. rewrite Hrun.
    rewrite <- !app_assoc in Hrun'. exact Hrun'.
Qed.

End Responsive.

Lemma gather_start_live w updates :
  Forall2 (λ item t, upd_for item t ∧ task_live t) updates
          (tasks (gather_start w updates)).
Proof. simpl. induction updates; simpl; by constructor. Qed.

(** *** A future that is never resolved *)

(** A task that no step can advance stays as it is under every
    schedule, so a fan-out that holds such a task never completes. *)
Lemma stuck_task_stays i t sched : ∀ st st',
  (∀ w, task_step env t w = None) →
  tasks st !! i = Some t →
  run env sched st = Some st' →
  tasks st' !! i = Some t.
Proof.
  induction sched as [|j sched IH]; intros st st' Hstuck Ht; simpl.
  - by intros [= <-].
  - destruct (step env j st) as [st1|] eqn:Hstep; [|done].
    apply IH; [done |].
    destruct (decide (i = j)) as [->|Hne].
    + apply step_inv in Hstep as (t0 & t' & w' & Ht0 & Htask & _).
      rewrite Ht in Ht0. injection Ht0 as <-. by rewrite Hstuck in Htask.
    + by rewrite (step_other j st st1 i Hstep Hne).
Qed.

Lemma stuck_task_blocks_gather i t sched st st' :
  (∀ w, task_step env t w = None) →
  task_done t = false →
  tasks st !! i = Some t →
  run env sched st = Some st' →
  all_done st' = false ∧ gather_result (tasks st') = None.
Proof.
  intros Hstuck Hnot Ht Hrun.
  pose proof (stuck_task_stays i t sched st st' Hstuck Ht Hrun) as Ht'.
  assert (Hall : all_done st' = false).
  { unfold all_done. apply not_true_is_false. intros Hall.
    rewrite forallb_forall in Hall.
    apply list_elem_of_lookup_2, list_elem_of_In, Hall in Ht'. congruence. }
  split; [done |].
  destruct (gather_result (tasks st')) as [outs|] eqn:Hres; [|done].
  apply gather_result_done in Hres. unfold all_done in Hall. congruence.
Qed.

(** *** Capabilities that answer by their arguments alone *)

Lemma dict_get_elem (d : L1.store) k v : L1.dict_get d k = Some v → (k, v) ∈ d.
Proof.
  induction d as [|[k' v'] d IH]; simpl; [done |].
  destruct (decide (k' = k)) as [->|Hne].
  - intros [= ->]. left.
  - intros H. right. by apply IH.
Qed.

Lemma elem_of_dict_set (d : L1.store) k v kv :
  kv ∈ L1.dict_set d k v → kv = (k, v) ∨ kv ∈ d.
Proof.
  induction d as [|[k' v'] d IH]; simpl.
  - rewrite list_elem_of_singleton. by left.
  - destruct (decide (k' = k)) as [->|Hne]; rewrite !elem_of_cons.
    + intros [->|Hin]; [by left | right; by right].
    + intros [->|Hin]; [right; by left |].
      destruct (IH Hin) as [->|?]; [by left | right; by right].
Qed.

Lemma elem_of_evicted cap (d : L1.store) kv :
  kv ∈ L1.evicted cap d → kv ∈ d.
Proof.
  unfold L1.evicted. destruct (cap <=? length d); [|done].
  destruct d; simpl; [done |]. by right.
Qed.

(** What a step that writes at most the entry of [k] keeps. *)
Lemma coherent_step w w' k v :
  l1 w' = l1 w ∨ l1 w' = L1.dict_set (L1.evicted L1_CACHE_SIZE (l1 w)) k v →
  l2 w' = l2 w ∨ l2 w' = <[k := v]> (l2 w) →
  (v ≠ [] → resolution env k = Ok v) →
  coherent env w → coherent env w'.
Proof.
  intros H1 H2 Hkv [HL1 HL2]. split.
  - intros k' v' Hin Hv'. destruct H1 as [E|E]; rewrite E in Hin.
    + by apply HL1.
    + apply elem_of_dict_set in Hin as [[= -> ->]|Hin]; [by apply Hkv |].
      apply elem_of_evicted in Hin. by apply HL1.
  - intros k' v' Hget Hv'. destruct H2 as [E|E]; rewrite E in Hget.
    + by apply HL2.
    + destruct (decide (k = k')) as [<-|Hne].
      * rewrite lookup_insert_eq in Hget. injection Hget as <-. by apply Hkv.
      * rewrite lookup_insert_ne in Hget by done. by apply HL2.
Qed.

(** The three ways through the lookups when the SELECT works. *)
Lemma begin_cases query w :
  db_fault env (trace w ++ [EvL1Get query]) (EvSelect query) = None →
  (∃ v, v ≠ [] ∧ L1.get_from_l1 (l1 w) query = Some v
        ∧ cached_ask_begin env query w
          = (Ok (Some v),
             mkWorld (l1 w) (l2 w) (durable w) (trace w ++ [EvL1Get query])))
  ∨ (∃ v, v ≠ [] ∧ l2 w !! query = Some v
          ∧ cached_ask_begin env query w
            = (Ok (Some v),
               mkWorld (L1.dict_set (L1.evicted L1_CACHE_SIZE (l1 w)) query v)
                       (l2 w) (durable w)
                       (trace w ++ [EvL1Get query; EvSelect query;
                                    EvL1Set query v])))
  ∨ cached_ask_begin env query w = (Ok None, after_miss query w).
Proof.
  intros Hdb.
  assert (Hl2 : truthy_opt (L1.get_from_l1 (l1 w) query) = false →
    (∃ v, v ≠ [] ∧ l2 w !! query = Some v
          ∧ cached_ask_begin env query w
            = (Ok (Some v),
               mkWorld (L1.dict_set (L1.evicted L1_CACHE_SIZE (l1 w)) query v)
                       (l2 w) (durable w)
                       (trace w ++ [EvL1Get query; EvSelect query;
                                    EvL1Set query v])))
    ∨ cached_ask_begin env query w = (Ok None, after_miss query w)).
  { intros Hfalsy. destruct (l2 w !! query) as [v2|] eqn:Hq.
    - destruct (truthy v2) eqn:Hv2.
      + left. exists v2. split; [by apply truthy_nonempty |]. split; [done |].
        by apply begin_l2_hit.
      + right. apply begin_miss; [done.. |]. by rewrite Hq.
    - right. apply begin_miss; [done.. |]. by rewrite Hq. }
  destruct (L1.get_from_l1 (l1 w) query) as [v1|] eqn:Hget;
    [|right; by apply Hl2].
  destruct (truthy v1) eqn:Hv1; [|right; by apply Hl2].
  left. exists v1. split; [by apply truthy_nonempty |]. split; [done |].
  by apply begin_l1_hit.
Qed.

Section OnCourse.

Hypothesis Hfree : history_free env.
Hypothesis Hdb : ∀ t stmt, db_fault env t stmt = None.

Lemma hits_free t q : hits env t q = hits env [] q.
Proof. destruct Hfree as (Hs & _ & _). unfold hits. by rewrite Hs. Qed.

Lemma resolution_ok prompt result :
  awaited (pipeline env prompt) = Ok result →
  resolution env prompt = Ok (strip result).
Proof. unfold resolution. by intros ->. Qed.

(** The lookups of [cached_ask(prompt)]: a tier answers with the
    resolution of the prompt, or the pipeline is submitted. *)
Lemma begin_on_course prompt w c' w' :
  coherent env w →
  ask_co_step env (AskStart prompt) w = Some (c', w') →
  coherent env w'
  ∧ (c' = AskDone (resolution env prompt) ∨ c' = AskAwait prompt ThQueued).
Proof.
  intros Hco. pose proof Hco as [HL1 HL2]. cbn [ask_co_step].
  destruct (begin_cases prompt w (Hdb _ _))
    as [(v & Hv & Hget & ->)|[(v & Hv & Hget & ->)| ->]]; intros [= <- <-].
  - assert (Hres : resolution env prompt = Ok v).
    { apply HL1; [|done]. by apply dict_get_elem. }
    split; [|left; by rewrite Hres].
    apply (coherent_step w _ prompt v); [by left | by left | done | done].
  - assert (Hres : resolution env prompt = Ok v) by by apply HL2.
    split; [|left; by rewrite Hres].
    apply (coherent_step w _ prompt v); [by right | by left | done | done].
  - split; [|by right].
    apply (coherent_step w _ prompt []); [by left | by left | done | done].
Qed.

(** The worker thread and the write-through of [cached_ask(prompt)]. *)
Lemma await_on_course prompt th w c' w' :
  coherent env w →
  thread_on_course env prompt th →
  ask_co_step env (AskAwait prompt th) w = Some (c', w') →
  coherent env w'
  ∧ (c' = AskDone (resolution env prompt)
     ∨ ∃ th', c' = AskAwait prompt th' ∧ thread_on_course env prompt th').
Proof.
  intros Hco. destruct th as [|docs|r]; cbn [ask_co_step thread_on_course].
  - intros _. rewrite search_faiss_eq, hits_free.
    assert (Hco' : coherent env
      (mkWorld (l1 w) (l2 w) (durable w) (trace w ++ [EvSearch prompt]))).
    { apply (coherent_step w _ prompt []); [by left | by left | done | done]. }
    destruct (hits env [] prompt) as [docs|e|] eqn:Hhits; intros [= <- <-];
      (split; [done |]); right; eexists; (split; [done |]); simpl;
      unfold pipeline; by rewrite ?Hhits.
  - intros Hhits. rewrite generate_answer_eq. intros [= <- <-].
    split.
    { apply (coherent_step w _ prompt []); [by left | by left | done | done]. }
    right. eexists. split; [done |]. simpl. unfold pipeline. rewrite Hhits.
    by destruct Hfree as (_ & -> & _).
  - intros ->. destruct (awaited (pipeline env prompt)) as [result|e|] eqn:Hpipe;
      [| |done].
    + rewrite resume_ok by apply Hdb. intros [= <- <-].
      pose proof (resolution_ok prompt result Hpipe) as Hres.
      split; [|left; by rewrite Hres].
      apply (coherent_step w _ prompt (strip result));
        [by right | by right | done | done].
    + intros [= <- <-]. split; [done |]. left.
      unfold resolution. by rewrite Hpipe.
Qed.

Lemma upd_continue_on_course item c' w' :
  c' = AskDone (resolution env (prompt_of env item))
  ∨ (∃ th', c' = AskAwait (prompt_of env item) th'
            ∧ thread_on_course env (prompt_of env item) th') →
  upd_on_course env item (TUpd (upd_continue item (c', w')).1).
Proof.
  intros [->|(th' & -> & Hth)]; simpl; [done |]. split; [done |]. by exists th'.
Qed.

Lemma task_step_on_course item t w t' w' :
  upd_on_course env item t → coherent env w →
  task_step env t w = Some (t', w') →
  upd_on_course env item t' ∧ coherent env w'.
Proof.
  intros Hon Hco.
  destruct t as [c|[i|i [|fetched]|i c|out]]; [done |..];
    cbn [task_step upd_co_step upd_on_course] in *.
  - subst i. by intros [= <- <-].
  - subst i. intros [= <- <-]. split.
    + split; [done |]. by destruct Hfree as (_ & _ & ->).
    + apply (coherent_step w _ [] []); [by left | by left | done | done].
  - destruct Hon as [-> ->]. fold (prompt_of env item).
    assert (Hgo : option_map (λ uw : UpdCo * World, (TUpd uw.1, uw.2))
        (option_map (upd_continue item)
           (ask_co_step env (AskStart (prompt_of env item)) w))
        = Some (t', w') →
        upd_on_course env item t' ∧ coherent env w').
    { destruct (ask_co_step env (AskStart (prompt_of env item)) w)
        as [[c' w0]|] eqn:Hstep; [|done].
      destruct (begin_on_course _ _ _ _ Hco Hstep) as [Hco' Hc'].
      cbn [option_map]. intros [= <- <-].
      split; [|by destruct c'].
      apply upd_continue_on_course.
      destruct Hc' as [-> | ->]; [by left | right; by exists ThQueued]. }
    unfold prompt_of in *.
    by destruct (awaited (http_get env [] (item_get item "link"))).
  - destruct Hon as [-> (th & -> & Hth)].
    destruct (ask_co_step env (AskAwait (prompt_of env item) th) w)
      as [[c' w0]|] eqn:Hstep; [|done].
    destruct (await_on_course _ _ _ _ _ Hco Hth Hstep) as [Hco' Hc'].
    cbn [option_map]. intros [= <- <-].
    split; [|by destruct c'].
    by apply upd_continue_on_course.
  - done.
Qed.

Lemma gather_result_on_course updates (ts : list Task) :
  Forall2 (upd_on_course env) updates ts →
  forallb task_done ts = true →
  gather_result ts = Some (expected env <$> updates).
Proof.
  induction 1 as [|item t updates ts Hon _ IH]; simpl; [done |].
  intros [Hdone Hrest]%andb_prop. rewrite (IH Hrest).
  destruct t as [c|[| | |out]]; try done. simpl in Hon. by subst out.
Qed.

End OnCourse.

Lemma gather_start_on_course w updates :
  Forall2 (upd_on_course env) updates (tasks (gather_start w updates)).
Proof. simpl. induction updates; simpl; by constructor. Qed.

End FanOut.

(** The scenario of the specification: three feed entries, the model
    unreachable for the second one.  Whether the coroutines run one after
    the other or abreast with the last entry ahead, [gather] delivers the
    three outputs in the order of the entries, the second one carrying the
    error text. *)
Lemma gather_three_items_one_failure :
  let expected :=
    [update_output Demo.item1 (Ok (py "Risk: High"));
     update_output Demo.item2 (Raise Demo.model_down);
     update_output Demo.item3 (Ok (py "Risk: High"))] in
  let start := gather_start Demo.w_empty [Demo.item1; Demo.item2; Demo.item3] in
  (tasks <$> run Demo.env_partial Demo.in_turn start) ≫= gather_result
  = Some expected
  ∧ (tasks <$> run Demo.env_partial Demo.abreast start) ≫= gather_result
    = Some expected
  ∧ danger_analysis (update_output Demo.item2 (Raise Demo.model_down))
    = [9888%N; 65039%N] ++ py " Error: model unreachable".
Proof. by vm_compute. Qed.

Lemma some_default {A} (o : option A) (d : A) :
  match o with Some _ => true | None => false end = true →
  o = Some (default d o).
Proof. by destruct o. Qed.




(** * Further properties of the code *)

(** ** The L1 dict below and at capacity *)

Lemma keys_dict_set_present (d : L1.store) k v :
  k ∈ L1.keys d → L1.keys (L1.dict_set d k v) = L1.keys d.
Proof.
  unfold L1.keys. induction d as [|[k' v'] d IH]; simpl.
  - intros H. by apply elem_of_nil in H.
  - destruct (decide (k' = k)) as [->|Hne]; simpl; [done |].
    rewrite elem_of_cons. intros [?|Hin]; [congruence |]. f_equal. by apply IH.
Qed.

Lemma dict_get_app_fresh (d : L1.store) k v k' :
  k' ≠ k → L1.dict_get (d ++ [(k, v)]) k' = L1.dict_get d k'.
Proof.
  intros Hne. induction d as [|[k0 v0] d IH]; simpl.
  - by rewrite decide_False.
  - by rewrite IH.
Qed.

(** X1: below capacity [set_to_l1] evicts nothing: the key gets its value,
    every other key keeps its own, an overwritten key keeps its place in
    the eviction order and a new key goes last. *)
Theorem set_to_l1_below_capacity (cap : nat) (d : L1.store) (k v : str) :
  length d < cap →
  ∃ d', L1.set_to_l1 cap d k v = Ok d'
        ∧ L1.get_from_l1 d' k = Some v
        ∧ (∀ k', k' ≠ k → L1.get_from_l1 d' k' = L1.get_from_l1 d k')
        ∧ (k ∈ L1.keys d → L1.keys d' = L1.keys d)
        ∧ (k ∉ L1.keys d → L1.keys d' = L1.keys d ++ [k]).
Proof.
  intros Hlen. exists (L1.dict_set d k v). unfold L1.set_to_l1, L1.get_from_l1.
  assert ((cap <=? length d) = false) as -> by (apply Nat.leb_gt; lia).
  split; [done |]. split; [apply L1Facts.dict_get_set_eq |].
  split; [intros k' Hne; by apply L1Facts.dict_get_set_ne |].
  split; [apply keys_dict_set_present |].
  intros Hfresh. rewrite L1Facts.dict_set_fresh by done.
  unfold L1.keys. by rewrite fmap_app.
Qed.

Lemma set_to_l1_below_capacity_witness :
  ∃ d', L1.set_to_l1 3 [(Demo.key 0, py "a"); (Demo.key 1, py "b")]
          (Demo.key 0) (py "c") = Ok d'
        ∧ L1.get_from_l1 d' (Demo.key 0) = Some (py "c")
        ∧ (∀ k', k' ≠ Demo.key 0 →
             L1.get_from_l1 d' k'
             = L1.get_from_l1 [(Demo.key 0, py "a"); (Demo.key 1, py "b")] k')
        ∧ (Demo.key 0 ∈ L1.keys [(Demo.key 0, py "a"); (Demo.key 1, py "b")] →
             L1.keys d' = L1.keys [(Demo.key 0, py "a"); (Demo.key 1, py "b")])
        ∧ (Demo.key 0 ∉ L1.keys [(Demo.key 0, py "a"); (Demo.key 1, py "b")] →
             L1.keys d'
             = L1.keys [(Demo.key 0, py "a"); (Demo.key 1, py "b")]
               ++ [Demo.key 0]).
Proof. apply (set_to_l1_below_capacity 3). simpl. lia. Defined.

(** X2: at capacity a put of a key that is not in the dict evicts the
    first key of the dict and nothing else: the dict becomes its tail with
    the new entry at the end. *)
Theorem set_to_l1_full_new_key (cap : nat) (k0 v0 : str) (rest : L1.store)
    (k v : str) :
  0 < cap →
  cap ≤ length ((k0, v0) :: rest) →
  NoDup (L1.keys ((k0, v0) :: rest)) →
  k ∉ L1.keys ((k0, v0) :: rest) →
  L1.set_to_l1 cap ((k0, v0) :: rest) k v = Ok (rest ++ [(k, v)])
  ∧ L1.get_from_l1 (rest ++ [(k, v)]) k0 = None
  ∧ L1.get_from_l1 (rest ++ [(k, v)]) k = Some v
  ∧ ∀ k', k' ≠ k0 → k' ≠ k →
      L1.get_from_l1 (rest ++ [(k, v)]) k'
      = L1.get_from_l1 ((k0, v0) :: rest) k'.
Proof.
  intros Hcap Hfull Hnd Hfresh. unfold L1.keys in *. simpl in Hnd, Hfresh.
  apply NoDup_cons in Hnd as [Hk0 Hnd].
  apply not_elem_of_cons in Hfresh as [Hne Hfresh].
  assert (Hset : L1.dict_set rest k v = rest ++ [(k, v)])
    by by apply L1Facts.dict_set_fresh.
  split.
  - rewrite L1Facts.set_to_l1_eq by done. unfold L1.evicted.
    assert ((cap <=? length ((k0, v0) :: rest)) = true) as ->
      by by apply Nat.leb_le.
    simpl. by rewrite Hset.
  - unfold L1.get_from_l1. split; [|split].
    + rewrite dict_get_app_fresh by done. by apply L1Facts.dict_get_None.
    + rewrite <- Hset. apply L1Facts.dict_get_set_eq.
    + intros k' Hk0' Hk'. rewrite dict_get_app_fresh by done.
      simpl. by rewrite decide_False.
Qed.

Lemma set_to_l1_full_new_key_witness :
  L1.set_to_l1 2 [(Demo.key 0, py "a"); (Demo.key 1, py "b")]
    (Demo.key 2) (py "c")
  = Ok ([(Demo.key 1, py "b")] ++ [(Demo.key 2, py "c")]).
Proof.
  apply (set_to_l1_full_new_key 2 (Demo.key 0) (py "a") [(Demo.key 1, py "b")]).
  - lia.
  - simpl. lia.
  - apply (bool_decide_unpack _). by vm_compute.
  - apply (bool_decide_unpack _). by vm_compute.
Defined.

(** X3: first in, first out, however many keys are put: after putting
    distinct keys into an empty L1 of capacity [cap], L1 holds the last
    [cap] of them (all of them when there are fewer), in the order they
    were put, each with its value. *)
Theorem l1_keeps_last_keys (cap : nat) (val : str → str) (ks : list str) :
  0 < cap → NoDup ks →
  let d := L1.put_all cap val [] ks in
  L1.keys d = drop (length ks - cap) ks
  ∧ length d = length ks `min` cap
  ∧ ∀ k, L1.get_from_l1 d k
         = if decide (k ∈ drop (length ks - cap) ks) then Some (val k) else None.
Proof.
  intros Hcap Hnd d. subst d. rewrite L1Facts.put_all_fifo by done.
  split; [apply L1Facts.keys_map |]. split.
  - rewrite length_fmap, length_drop. lia.
  - intros k. apply L1Facts.dict_get_map.
Qed.

Lemma l1_keeps_last_keys_witness :
  L1.keys (L1.put_all 2 (fun _ => py "v") []
             [Demo.key 0; Demo.key 1; Demo.key 2; Demo.key 3])
  = drop (length [Demo.key 0; Demo.key 1; Demo.key 2; Demo.key 3] - 2)
         [Demo.key 0; Demo.key 1; Demo.key 2; Demo.key 3].
Proof.
  apply (l1_keeps_last_keys 2); [lia |].
  apply (bool_decide_unpack _). by vm_compute.
Defined.

(** ** What a call does to the tiers and to the capabilities *)

Lemma l1_synced_length (query : str) (w w' : World) :
  l1_synced query w w' →
  length (l1 w) ≤ L1_CACHE_SIZE → length (l1 w') ≤ L1_CACHE_SIZE.
Proof.
  intros [->|(v & -> & _)] Hlen; [done |].
  pose proof (L1Facts.length_evicted L1_CACHE_SIZE (l1 w) L1_CACHE_SIZE_pos Hlen).
  pose proof (L1Facts.length_dict_set (L1.evicted L1_CACHE_SIZE (l1 w)) query v).
  lia.
Qed.

Lemma l2_step_lookup (query : str) (m m' : gmap str str) (k : str) :
  l2_step query m m' →
  (k ≠ query → m' !! k = m !! k) ∧ (is_Some (m !! k) → is_Some (m' !! k)).
Proof.
  intros [->|[v ->]]; [done |]. split.
  - intros Hne. by rewrite lookup_insert_ne.
  - intros Hk. destruct (decide (query = k)) as [->|Hne].
    + rewrite lookup_insert_eq. by eexists.
    + by rewrite lookup_insert_ne.
Qed.

Lemma count_cache_events p evs :
  Forall (λ ev, is_pipeline ev = false) evs →
  (p = is_search ∨ p = is_generate) → count p evs = 0.
Proof.
  intros Hall Hp. unfold count.
  induction Hall as [|ev evs Hev _ IH]; simpl; [done |].
  unfold is_pipeline in Hev. apply orb_false_elim in Hev as [Hs Hg].
  destruct Hp as [->| ->]; [rewrite Hs | rewrite Hg]; exact IH.
Qed.

Section Effects.

Variable env : Env.

(** The lookups of [cached_ask]: no write to L2, at most the promotion in
    L1, no use of a capability. *)
Lemma begin_effect query w r w' :
  cached_ask_begin env query w = (r, w') →
  l1_synced query w w' ∧ l2 w' = l2 w
  ∧ (∃ evs, trace w' = trace w ++ evs
            ∧ Forall (λ ev, is_pipeline ev = false) evs)
  ∧ (r = Ok None → w' = after_miss query w).
Proof.
  assert (Hfalsy : truthy_opt (L1.get_from_l1 (l1 w) query) = false →
    cached_ask_begin env query w = (r, w') →
    l1_synced query w w' ∧ l2 w' = l2 w
    ∧ (∃ evs, trace w' = trace w ++ evs
              ∧ Forall (λ ev, is_pipeline ev = false) evs)
    ∧ (r = Ok None → w' = after_miss query w)).
  { intros Hl1.
    destruct (db_fault env (trace w ++ [EvL1Get query]) (EvSelect query))
      as [e|] eqn:Hdb.
    { rewrite (begin_l2_fault env query w e) by done. intros [= <- <-].
      cbn [after_miss l1 l2 trace]. split; [by left |]. split; [done |].
      split; [|done]. eexists. split; [done |]. by repeat constructor. }
    assert (Hmiss : truthy_opt (l2 w !! query) = false →
      cached_ask_begin env query w = (r, w') →
      l1_synced query w w' ∧ l2 w' = l2 w
      ∧ (∃ evs, trace w' = trace w ++ evs
                ∧ Forall (λ ev, is_pipeline ev = false) evs)
      ∧ (r = Ok None → w' = after_miss query w)).
    { intros Hl2. rewrite begin_miss by done. intros [= <- <-].
      cbn [after_miss l1 l2 trace]. split; [by left |]. split; [done |].
      split; [|done]. eexists. split; [done |]. by repeat constructor. }
    destruct (l2 w !! query) as [v|] eqn:Hq; [|by apply Hmiss].
    destruct (truthy v) eqn:Hv; [|by apply Hmiss].
    rewrite (begin_l2_hit env query w v) by done. intros [= <- <-].
    split; [right; by exists v |]. cbn [l1 l2 trace]. split; [done |].
    split; [|done]. eexists. split; [done |]. by repeat constructor. }
  destruct (L1.get_from_l1 (l1 w) query) as [v|] eqn:Hget; [|by apply Hfalsy].
  destruct (truthy v) eqn:Hv; [|by apply Hfalsy].
  rewrite (begin_l1_hit env query w v) by done. intros [= <- <-].
  cbn [l1 l2 trace]. split; [by left |]. split; [done |].
  split; [|done]. eexists. split; [done |]. by repeat constructor.
Qed.

(** The write-through: the row of the key in L2, then the entry in L1;
    no use of a capability; L1 is written only when L2 was. *)
Lemma resume_effect query result w r w' :
  cached_ask_resume env query result w = (r, w') →
  l1_synced query w w' ∧ l2_fate env query w w'
  ∧ (∃ evs, trace w' = trace w ++ evs
            ∧ Forall (λ ev, is_pipeline ev = false) evs)
  ∧ (l1 w' ≠ l1 w → l2 w' = <[query := strip result]> (l2 w)).
Proof.
  assert (Hrb : ∀ t stmt tr m,
    l2_step query (l2 w) m →
    l2_fate env query w
      (mkWorld (l1 w) (if db_rollback env t stmt then durable w else m)
               (durable w) tr)).
  { intros t stmt tr m Hm. destruct (db_rollback env t stmt) eqn:Hb.
    - right. cbn [l1 l2]. split; [|done]. intros Hno. by rewrite Hno in Hb.
    - by left. }
  unfold_m.
  destruct (db_fault env (trace w) _); cbv beta iota.
  { intros [= <- <-]. split; [by left |]. split; [apply Hrb; by left |].
    cbn [l1 l2 trace]. split; [|done].
    eexists. split; [done |]. by repeat constructor. }
  destruct (db_fault env _ EvCommit); cbv beta iota.
  { intros [= <- <-]. split; [by left |].
    split; [apply Hrb; right; by eexists |].
    cbn [l1 l2 trace]. split; [|done].
    eexists. split; [by rewrite <- app_assoc |]. by repeat constructor. }
  rw_m set_to_l1_world. intros [= <- <-].
  split; [right; eexists; split; [done | apply lookup_insert_eq] |].
  split; [left; right; by eexists |].
  cbn [l1 l2 trace]. split; [|done].
  eexists. split; [by rewrite <- !app_assoc |]. by repeat constructor.
Qed.

(** [ask]: one retrieval, then one generation when the retrieval gave its
    hits, none when it raised; no tier is touched. *)
Lemma ask_effect query w r w1 :
  ask env query w = (r, w1) →
  l1 w1 = l1 w ∧ l2 w1 = l2 w
  ∧ count is_search (trace w1) = count is_search (trace w) + 1
  ∧ match hits env (trace w) query with
    | Ok docs =>
        count is_generate (trace w1) = count is_generate (trace w) + 1
        ∧ r = generate_content env (trace w ++ [EvSearch query])
                (rag_prompt query docs)
    | Raise e =>
        count is_generate (trace w1) = count is_generate (trace w)
        ∧ r = Raise e
    | Never =>
        count is_generate (trace w1) = count is_generate (trace w)
        ∧ r = Never
    end.
Proof.
  unfold ask, bind. rewrite search_faiss_eq.
  destruct (hits env (trace w) query) as [docs|e|].
  - rewrite generate_answer_eq. cbn [l1 l2 trace]. intros [= <- <-].
    cbn [l1 l2 trace]. rewrite !count_app. unfold count. simpl.
    repeat split; lia.
  - intros [= <- <-]. cbn [l1 l2 trace]. rewrite !count_app.
    unfold count. simpl. repeat split; lia.
  - intros [= <- <-]. cbn [l1 l2 trace]. rewrite !count_app.
    unfold count. simpl. repeat split; lia.
Qed.

Lemma trace_ext_counts (w w' : World) :
  (∃ evs, trace w' = trace w ++ evs
          ∧ Forall (λ ev, is_pipeline ev = false) evs) →
  count is_search (trace w') = count is_search (trace w)
  ∧ count is_generate (trace w') = count is_generate (trace w).
Proof.
  intros (evs & -> & Hall). rewrite !count_app.
  rewrite !(count_cache_events _ evs Hall) by auto. lia.
Qed.

Lemma begin_durable query w : durable (cached_ask_begin env query w).2 = durable w.
Proof.
  unfold_m. destruct (truthy_opt (L1.get_from_l1 (l1 w) query)); [done |].
  destruct (db_fault env _ _); cbv beta iota; [done |]. cbn [l2].
  destruct (l2 w !! query) as [v|]; cbn [truthy_opt]; [|done].
  destruct (truthy v); [|done]. by rw_m set_to_l1_world.
Qed.

(** One call of [cached_ask], whatever its outcome. *)
Lemma cached_ask_effect query w r w' :
  cached_ask env query w = (r, w') →
  l1_synced query w w' ∧ l2_fate env query w w'
  ∧ ∃ s g, s ≤ 1 ∧ g ≤ s
           ∧ count is_search (trace w') = count is_search (trace w) + s
           ∧ count is_generate (trace w') = count is_generate (trace w) + g.
Proof.
  intros Hcall.
  apply cached_ask_inv in Hcall
    as [(v & Hbegin & ->)|[(e & Hbegin & ->)|(w0 & ra & w1 & Hbegin & Hask & Hres)]].
  - pose proof (begin_effect query w _ _ Hbegin) as (H1 & H2 & Htr & _).
    apply trace_ext_counts in Htr as [Cs Cg].
    split; [done |]. split; [left; by left |].
    exists 0, 0. repeat split; lia.
  - pose proof (begin_effect query w _ _ Hbegin) as (H1 & H2 & Htr & _).
    apply trace_ext_counts in Htr as [Cs Cg].
    split; [done |]. split; [left; by left |].
    exists 0, 0. repeat split; lia.
  - pose proof (begin_durable query w) as Hd. rewrite Hbegin in Hd.
    pose proof (begin_effect query w _ _ Hbegin) as (_ & _ & _ & Hmiss).
    rewrite (Hmiss eq_refl) in *. clear Hmiss.
    pose proof (ask_durable env _ _ _ _ Hask) as Ad.
    pose proof (ask_effect _ _ _ _ Hask) as (A1 & A2 & As & Ag).
    cbn [after_miss l1 l2 durable] in A1, A2, Ad.
    assert (Cs : count is_search (trace (after_miss query w))
                 = count is_search (trace w)).
    { cbn [after_miss trace]. rewrite count_app. unfold count at 2. simpl. lia. }
    assert (Cg : count is_generate (trace (after_miss query w))
                 = count is_generate (trace w)).
    { cbn [after_miss trace]. rewrite count_app. unfold count at 2. simpl. lia. }
    assert (Hg : ∃ g, g ≤ 1 ∧ count is_generate (trace w1)
                      = count is_generate (trace (after_miss query w)) + g).
    { destruct (hits env _ query); destruct Ag as [Ag _];
        [exists 1 | exists 0 | exists 0]; split; lia. }
    destruct Hg as (g & Hg1 & Hg).
    destruct (awaited ra) as [result|e|].
    + pose proof (resume_effect _ _ _ _ _ Hres) as (R1 & R2 & Rtr & _).
      apply trace_ext_counts in Rtr as [Rs Rg].
      unfold l1_synced in R1. rewrite A1 in R1.
      split; [done |]. split.
      * destruct R2 as [R2|(Hno & R2 & R3)].
        -- left. by rewrite A2 in R2.
        -- right. by rewrite R2, R3, Ad, A1.
      * exists 1, g. repeat split; lia.
    + destruct Hres as [-> ->]. split; [by left |].
      split; [left; left; done |]. exists 1, g. repeat split; lia.
    + destruct Hres as [-> ->]. split; [by left |].
      split; [left; left; done |]. exists 1, g. repeat split; lia.
Qed.

(** Without rollbacks L2 only gains rows. *)
Lemma l2_fate_step query w w' :
  no_rollback env → l2_fate env query w w' → l2_step query (l2 w) (l2 w').
Proof. by intros Hno [?|[? _]]. Qed.

End Effects.

(** ** The L2 store on its own *)

(** X4: when SQLite accepts the calls, [set_to_l2] then [get_from_l2] of
    the same key gives the value back whatever was stored before (the last
    write wins); the rows of other keys and L1 are as they were. *)
Theorem l2_round_trip (env : Env) (q v : str) (w : World) :
  db_fault env (trace w) (EvUpsert q v) = None →
  db_fault env (trace w ++ [EvUpsert q v]) EvCommit = None →
  db_fault env (trace w ++ [EvUpsert q v; EvCommit]) (EvSelect q) = None →
  ∃ w1, set_to_l2 env q v w = (Ok tt, w1)
        ∧ (get_from_l2 env q w1).1 = Ok (Some v)
        ∧ l1 w1 = l1 w
        ∧ ∀ q', q' ≠ q → l2 w1 !! q' = l2 w !! q'.
Proof.
  intros Hup Hco Hse. eexists. split.
  - unfold_m. rw_m Hup. by rw_m Hco.
  - cbn [l1 l2 trace]. split; [|split; [done |]].
    + unfold_m. rewrite <- app_assoc. simpl. rewrite Hse. simpl.
      by rewrite lookup_insert_eq.
    + intros q' Hne. by rewrite lookup_insert_ne.
Qed.

Lemma l2_round_trip_witness :
  ∃ w1, set_to_l2 Demo.env_ok Demo.q (py "Risk: High") Demo.w_stale = (Ok tt, w1)
        ∧ (get_from_l2 Demo.env_ok Demo.q w1).1 = Ok (Some (py "Risk: High"))
        ∧ l1 w1 = l1 Demo.w_stale
        ∧ ∀ q', q' ≠ Demo.q → l2 w1 !! q' = l2 Demo.w_stale !! q'.
Proof.
  apply (l2_round_trip Demo.env_ok Demo.q (py "Risk: High") Demo.w_stale);
    reflexivity.
Defined.

(** X5: when the INSERT of the write-through raises, [cached_ask] raises
    that error: the answer the pipeline has just produced does not reach
    the caller and nothing is written, neither to L1 nor to the committed
    table.  What the connection sees of L2 stays as it was, unless SQLite
    rolls the open transaction back: then it is the table as last
    committed, and rows not yet committed, of whatever key, are gone. *)
Theorem cached_ask_l2_write_error (env : Env) (q : str) (w : World)
    (answer : str) (w1 : World) (e : exn) :
  truthy_opt (L1.get_from_l1 (l1 w) q) = false →
  truthy_opt (l2 w !! q) = false →
  db_fault env (trace w ++ [EvL1Get q]) (EvSelect q) = None →
  ask env q (after_miss q w) = (Ok answer, w1) →
  db_fault env (trace w1) (EvUpsert q (strip answer)) = Some e →
  exn_kind e = StorageUnavailable →
  ∃ w', cached_ask env q w = (Raise e, w')
        ∧ l1 w' = l1 w
        ∧ l2 w' = (if db_rollback env (trace w1) (EvUpsert q (strip answer))
                   then durable w else l2 w)
        ∧ durable w' = durable w
        ∧ count is_generate (trace w') = count is_generate (trace w) + 1.
Proof.
  intros Hl1 Hl2 Hse Hask Hup Hkind. eexists. split.
  - rewrite (cached_ask_miss_ok env q w answer w1); [| by apply begin_miss | done].
    rewrite (resume_insert_fault env q answer w1 e Hup).
    destruct e as [kind msg]. simpl in Hkind. by subst kind.
  - pose proof (ask_durable env _ _ _ _ Hask) as Ad.
    pose proof (ask_effect env _ _ _ _ Hask) as (A1 & A2 & _ & Ag).
    destruct (hits env (trace (after_miss q w)) q) as [docs|e'|];
      destruct Ag as [Ag Hr]; [|done..].
    cbn [after_miss l1 l2 durable trace] in *. rewrite A1, A2, Ad.
    split; [done |]. split; [done |]. split; [done |].
    rewrite count_app, Ag, count_app. unfold count at 2 3. simpl. lia.
Qed.

Lemma cached_ask_l2_write_error_witness :
  ∃ w', cached_ask Samples.env_disk_full Demo.q Samples.w_pending
        = (Raise (Exn StorageUnavailable (py "database or disk is full")), w')
        ∧ l1 w' = l1 Samples.w_pending
        ∧ l2 w' = durable Samples.w_pending
        ∧ durable w' = durable Samples.w_pending
        ∧ count is_generate (trace w')
          = count is_generate (trace Samples.w_pending) + 1.
Proof.
  eapply (cached_ask_l2_write_error Samples.env_disk_full Demo.q
            Samples.w_pending (py "Risk: High"));
    [reflexivity | reflexivity | reflexivity | | reflexivity | reflexivity].
  vm_compute. reflexivity.
Defined.

(** A failed write that rolls back costs L2 the uncommitted row of another
    key, which L1 still holds. *)
Example rollback_leaves_l1_ahead :
  let after := (cached_ask Samples.env_disk_full Demo.q Samples.w_pending).2 in
  l1_in_l2 Samples.w_pending
  ∧ L1.get_from_l1 (l1 after) (Demo.key 7) = Some (py "v")
  ∧ l2 after !! Demo.key 7 = None
  ∧ ¬ l1_in_l2 after.
Proof.
  intros after.
  assert (H1 : L1.get_from_l1 (l1 after) (Demo.key 7) = Some (py "v"))
    by (vm_compute; reflexivity).
  assert (H2 : l2 after !! Demo.key 7 = None) by (vm_compute; reflexivity).
  split; [|split; [done | split; [done |]]].
  - intros k. unfold Samples.w_pending. cbn [l1 l2 L1.get_from_l1 L1.dict_get].
    destruct (decide (Demo.key 7 = k)) as [<-|Hne]; [|by intros []].
    intros _. by rewrite lookup_singleton_eq.
  - intros Hin. specialize (Hin (Demo.key 7)). rewrite H1, H2 in Hin.
    by destruct Hin.
Qed.

(** ** Invariants of the two tiers *)

Lemma dict_get_evicted cap (d : L1.store) k :
  is_Some (L1.dict_get (L1.evicted cap d) k) → is_Some (L1.dict_get d k).
Proof.
  unfold L1.evicted. destruct (cap <=? length d); [|done].
  destruct d as [|[k0 v0] d]; simpl; [done |].
  destruct (decide (k0 = k)); [by eexists | done].
Qed.

Lemma tier_step_l2 w w' k :
  tier_step w w' → is_Some (l2 w !! k) → is_Some (l2 w' !! k).
Proof. intros (q & _ & H2). by apply (l2_step_lookup q). Qed.

Lemma tier_step_length w w' :
  tier_step w w' →
  length (l1 w) ≤ L1_CACHE_SIZE → length (l1 w') ≤ L1_CACHE_SIZE.
Proof. intros (q & H1 & _). by apply (l1_synced_length q). Qed.

Lemma tier_step_l1_in_l2 w w' :
  tier_step w w' → l1_in_l2 w → l1_in_l2 w'.
Proof.
  intros Hstep Hinv k Hk. pose proof Hstep as (q & H1 & H2).
  destruct H1 as [E|(v & E & Hq)]; rewrite E in Hk.
  - by apply (tier_step_l2 w), Hinv.
  - unfold L1.get_from_l1 in Hk. destruct (decide (q = k)) as [<-|Hne].
    + by eexists.
    + rewrite L1Facts.dict_get_set_ne in Hk by done.
      apply dict_get_evicted in Hk. by apply (tier_step_l2 w), Hinv.
Qed.

Lemma tier_fate_refl env w w' :
  l1 w' = l1 w → l2 w' = l2 w → tier_fate env w w'.
Proof. intros E1 E2. exists []. split; [by left | left; by left]. Qed.

Lemma tier_fate_step env w w' :
  no_rollback env → tier_fate env w w' → tier_step w w'.
Proof. intros Hno (q & H1 & [H2|[? _]]); [by exists q | done]. Qed.

Lemma tier_fate_length env w w' :
  tier_fate env w w' →
  length (l1 w) ≤ L1_CACHE_SIZE → length (l1 w') ≤ L1_CACHE_SIZE.
Proof. intros (q & H1 & _). by apply (l1_synced_length q). Qed.



(** X7: one call of [cached_ask] invokes the retrieval capability at most
    once and the generation capability at most once, and never generation
    without retrieval; when L1 holds a non-empty value for the key it
    invokes neither. *)
Theorem cached_ask_pipeline_at_most_once (env : Env) (q : str) (w : World)
    (r : Result str) (w' : World) :
  cached_ask env q w = (r, w') →
  (∃ s g, s ≤ 1 ∧ g ≤ s
          ∧ count is_search (trace w') = count is_search (trace w) + s
          ∧ count is_generate (trace w') = count is_generate (trace w) + g)
  ∧ (truthy_opt (L1.get_from_l1 (l1 w) q) = true →
     count is_search (trace w') = count is_search (trace w)
     ∧ count is_generate (trace w') = count is_generate (trace w)).
Proof.
  intros Hcall. split.
  - by pose proof (cached_ask_effect env q w r w' Hcall) as (_ & _ & ?).
  - intros Hhit.
    destruct (L1.get_from_l1 (l1 w) q) as [v|] eqn:Hget; [|done].
    simpl in Hhit.
    rewrite (cached_ask_hit env q w v _ (begin_l1_hit env q w v Hget Hhit))
      in Hcall.
    injection Hcall as <- <-. cbn [trace]. rewrite !count_app.
    unfold count at 2 5. simpl. lia.
Qed.

Lemma cached_ask_pipeline_at_most_once_witness :
  let after := cached_ask Demo.env_ok Demo.q Demo.w_empty in
  ∃ s g, s ≤ 1 ∧ g ≤ s
         ∧ count is_search (trace after.2)
           = count is_search (trace Demo.w_empty) + s
         ∧ count is_generate (trace after.2)
           = count is_generate (trace Demo.w_empty) + g.
Proof.
  apply (cached_ask_pipeline_at_most_once Demo.env_ok Demo.q Demo.w_empty
           (cached_ask Demo.env_ok Demo.q Demo.w_empty).1).
  apply surjective_pairing.
Defined.

(** ** The tiers under any interleaving *)

Section TiersUnderSchedules.

Variable env : Env.

Lemma ask_co_step_tiers c w c' w' :
  ask_co_step env c w = Some (c', w') → tier_fate env w w'.
Proof.
  destruct c as [query|query [|docs|r]|r]; cbn [ask_co_step].
  - destruct (cached_ask_begin env query w) as [r0 w0] eqn:Hbegin.
    pose proof (begin_effect env query w r0 w0 Hbegin) as (H1 & H2 & _).
    assert (tier_fate env w w0)
      by (exists query; split; [done | left; by left]).
    destruct r0 as [[r|]|e|]; [| | |done]; by intros [= <- <-].
  - rewrite search_faiss_eq.
    destruct (hits env (trace w) query); intros [= <- <-];
      by apply tier_fate_refl.
  - rewrite generate_answer_eq. intros [= <- <-]. by apply tier_fate_refl.
  - destruct (awaited r) as [result|e|]; [| |done].
    + destruct (cached_ask_resume env query result w) as [r0 w0] eqn:Hres.
      pose proof (resume_effect env query result w r0 w0 Hres) as (H1 & H2 & _).
      assert (tier_fate env w w0) by by exists query.
      destruct r0; [| |done]; by intros [= <- <-].
    + intros [= <- <-]. by apply tier_fate_refl.
  - done.
Qed.

Lemma upd_continue_world item c w : (upd_continue item (c, w)).2 = w.
Proof. by destruct c. Qed.

Lemma upd_co_step_tiers u w u' w' :
  upd_co_step env u w = Some (u', w') → tier_fate env w w'.
Proof.
  assert (Hask : ∀ item c,
    option_map (upd_continue item) (ask_co_step env c w) = Some (u', w') →
    tier_fate env w w').
  { intros item c.
    destruct (ask_co_step env c w) as [[c' w0]|] eqn:Hstep; [|done].
    cbn [option_map]. intros Hcont.
    assert (Hc : upd_continue item (c', w0) = (u', w')) by congruence.
    assert (Hw : w' = w0) by by rewrite <- (upd_continue_world item c' w0), Hc.
    subst w'. by eapply ask_co_step_tiers. }
  destruct u as [i|i [|fetched]|i c|out]; cbn [upd_co_step].
  - intros [= <- <-]. by apply tier_fate_refl.
  - intros [= <- <-]. by apply tier_fate_refl.
  - destruct (awaited fetched); [apply Hask.. | done].
  - apply Hask.
  - done.
Qed.

Lemma step_tiers i st st' :
  step env i st = Some st' → tier_fate env (world st) (world st').
Proof.
  intros Hstep. apply step_inv in Hstep as (t & t' & w' & _ & Htask & ->).
  cbn [world]. destruct t as [c|u]; cbn [task_step] in Htask.
  - destruct (ask_co_step env c (world st)) as [[c' w0]|] eqn:Hc; [|done].
    injection Htask as _ <-. by eapply ask_co_step_tiers.
  - destruct (upd_co_step env u (world st)) as [[u' w0]|] eqn:Hu; [|done].
    injection Htask as _ <-. by eapply upd_co_step_tiers.
Qed.

End TiersUnderSchedules.

(** X8: under every interleaving of [cached_ask] calls and [/updates]
    coroutines with their worker threads, L1 stays within its capacity;
    and when SQLite rolls nothing back, no row of L2 is ever removed and
    every key of L1 keeps having a row in L2. *)
Theorem schedules_keep_tiers (env : Env) (sched : list nat) (st st' : Sys) :
  run env sched st = Some st' →
  (length (l1 (world st)) ≤ L1_CACHE_SIZE →
   length (l1 (world st')) ≤ L1_CACHE_SIZE)
  ∧ (no_rollback env →
     (∀ k, is_Some (l2 (world st) !! k) → is_Some (l2 (world st') !! k))
     ∧ (l1_in_l2 (world st) → l1_in_l2 (world st'))).
Proof.
  revert st. induction sched as [|i sched IH]; intros st; simpl.
  - by intros [= <-].
  - destruct (step env i st) as [st1|] eqn:Hstep; [|done].
    intros Hrun. apply step_tiers in Hstep.
    destruct (IH st1 Hrun) as (IHlen & IHno).
    split.
    + intros Hlen. by apply IHlen, (tier_fate_length env (world st)).
    + intros Hno. destruct (IHno Hno) as [IH2 IHin].
      apply (tier_fate_step env _ _ Hno) in Hstep. split.
      * intros k Hk. by apply IH2, (tier_step_l2 (world st)).
      * intros Hin. by apply IHin, (tier_step_l1_in_l2 (world st)).
Qed.

Lemma schedules_keep_tiers_witness :
  let start := gather_start Demo.w_l2_only [Demo.item1; Demo.item2; Demo.item3] in
  let st' := default start (run Demo.env_partial Demo.abreast start) in
  (length (l1 (world start)) ≤ L1_CACHE_SIZE →
   length (l1 (world st')) ≤ L1_CACHE_SIZE)
  ∧ (no_rollback Demo.env_partial →
     (∀ k, is_Some (l2 (world start) !! k) → is_Some (l2 (world st') !! k))
     ∧ (l1_in_l2 (world start) → l1_in_l2 (world st'))).
Proof.
  intros start st'.
  apply (schedules_keep_tiers Demo.env_partial Demo.abreast start st').
  apply some_default. vm_compute. reflexivity.
Defined.

(** ** The [/query] endpoint *)

(** X9: [/query] answers a body without a query, or with an empty one,
    with the warning text and without any effect: no cache lookup and no
    capability call; and once a query has been answered with a non-empty
    text, the same body gets the same text again from L1, whatever the
    capabilities and the store would now do. *)
Theorem query_agent_guard (env : Env) (data : gmap str str) (w : World) :
  (data !! py "query" = None ∨ data !! py "query" = Some [] →
   query_agent env data w = (Ok empty_query_text, w))
  ∧ (∀ v w1, query_agent env data w = (Ok v, w1) →
       item_get data "query" ≠ [] → v ≠ [] →
       ∀ env', query_agent env' data w1
               = (Ok v, mkWorld (l1 w1) (l2 w1) (durable w1)
                                (trace w1 ++ [EvL1Get (item_get data "query")]))).
Proof.
  unfold query_agent, item_get. split.
  - by intros [-> | ->].
  - intros v w1 Hcall Hq Hv env'.
    destruct (default [] (data !! py "query")) as [|c query] eqn:Hdata;
      [done |].
    cbn [truthy negb] in *.
    apply cached_ask_hit, begin_l1_hit.
    + by eapply cached_ask_ok_l1.
    + by apply truthy_nonempty.
Qed.

(** ** Cache keys made from prompts *)

Lemma split_line (s1 s2 r1 r2 : str) :
  one_line s1 → one_line s2 →
  s1 ++ nl ++ r1 = s2 ++ nl ++ r2 → s1 = s2 ∧ r1 = r2.
Proof.
  unfold one_line, nl. revert s2.
  induction s1 as [|a s1 IH]; intros [|b s2] H1 H2; simpl.
  - by intros [= ->].
  - intros [= <- _]. exfalso. apply H2. left.
  - intros [= -> _]. exfalso. apply H1. left.
  - intros [= -> Heq].
    apply not_elem_of_cons in H1 as [_ H1].
    apply not_elem_of_cons in H2 as [_ H2].
    by destruct (IH s2 H1 H2 Heq) as [-> ->].
Qed.

(** X10: the prompt of an update, which is its cache key, determines the
    update: when titles, dates and links hold no line feed, two updates
    with the same prompt have the same title, date, link and content, so
    different updates never share a cache entry. *)
Theorem update_prompt_injective (i1 i2 : gmap str str) (c1 c2 : str) :
  one_line (item_get i1 "title") → one_line (item_get i2 "title") →
  one_line (item_get i1 "published") → one_line (item_get i2 "published") →
  one_line (item_get i1 "link") → one_line (item_get i2 "link") →
  update_prompt i1 c1 = update_prompt i2 c2 →
  item_get i1 "title" = item_get i2 "title"
  ∧ item_get i1 "published" = item_get i2 "published"
  ∧ item_get i1 "link" = item_get i2 "link"
  ∧ c1 = c2.
Proof.
  intros Ht1 Ht2 Hp1 Hp2 Hl1 Hl2. unfold update_prompt. intros H.
  do 6 apply app_inv_head in H.
  apply split_line in H as [Htitle H]; [|done..].
  apply app_inv_head in H.
  apply split_line in H as [Hpub H]; [|done..].
  apply app_inv_head in H.
  apply split_line in H as [Hlink H]; [|done..].
  apply app_inv_head in H. done.
Qed.

Lemma update_prompt_injective_witness :
  item_get Demo.item1 "title" = item_get Demo.item1 "title"
  ∧ item_get Demo.item1 "published" = item_get Demo.item1 "published"
  ∧ item_get Demo.item1 "link" = item_get Demo.item1 "link"
  ∧ py "text" = py "text".
Proof.
  apply (update_prompt_injective Demo.item1 Demo.item1);
    try reflexivity; apply (bool_decide_unpack _); by vm_compute.
Defined.

(** X11: the prompt of an audit report, which is its cache key, determines
    the three filters when they hold no line feed; with line feeds in the
    filters two different requests can have the same prompt and so share
    one cached report. *)
Theorem audit_prompt_injective (s1 y1 h1 s2 y2 h2 : str) :
  (one_line s1 → one_line s2 → one_line y1 → one_line y2 →
   one_line h1 → one_line h2 →
   audit_prompt s1 y1 h1 = audit_prompt s2 y2 h2 →
   s1 = s2 ∧ y1 = y2 ∧ h1 = h2)
  ∧ audit_prompt (py "Goa" ++ nl ++ py "Year: 2020") (py "2021") h1
    = audit_prompt (py "Goa") (py "2020" ++ nl ++ py "Year: 2021") h1.
Proof.
  split.
  - intros Hs1 Hs2 Hy1 Hy2 Hh1 Hh2. unfold audit_prompt. intros H.
    do 5 apply app_inv_head in H.
    apply split_line in H as [Hs H]; [|done..].
    apply app_inv_head in H.
    apply split_line in H as [Hy H]; [|done..].
    apply app_inv_head in H.
    by apply split_line in H as [Hh _].
  - unfold audit_prompt. by rewrite <- !app_assoc.
Qed.

(** ** The text rows of the audit report *)

Lemma wrap_line_spec fuel : ∀ line,
  length line ≤ 90 * S fuel →
  let rows := wrap_line fuel line in
  concat rows = line
  ∧ Forall (λ r, length r ≤ 90) rows
  ∧ (∀ i r, S i < length rows → rows !! i = Some r → length r = 90)
  ∧ 0 < length rows
  ∧ length line ≤ 90 * length rows
  ∧ (90 * (length rows - 1) < length line ∨ line = []).
Proof.
  induction fuel as [|fuel IH]; intros line Hlen; cbn [wrap_line].
  - simpl. rewrite app_nil_r. split; [done |].
    split; [constructor; [lia | constructor] |].
    split; [intros i r Hi; simpl in Hi; lia |].
    split; [lia |]. split; [lia |].
    destruct line; [by right | left; simpl; lia].
  - destruct (90 <? length line) eqn:Hlong.
    + apply Nat.ltb_lt in Hlong.
      destruct (IH (drop 90 line)) as (Hcat & Hall & Hfull & Hpos & Hle & Hmin).
      { rewrite length_drop. lia. }
      rewrite length_drop in Hle, Hmin.
      cbn [concat length]. rewrite Hcat, take_drop.
      split; [done |]. split.
      { constructor; [rewrite length_take; lia | done]. }
      split.
      { intros [|i] r Hi; simpl.
        - intros [= <-]. rewrite length_take. lia.
        - apply Hfull. lia. }
      split; [lia |]. split; [lia |]. left.
      destruct Hmin as [Hmin|Hnil]; [lia |].
      apply (f_equal length) in Hnil. rewrite length_drop in Hnil.
      simpl in Hnil. lia.
    + apply Nat.ltb_ge in Hlong. simpl. rewrite app_nil_r. split; [done |].
      split; [constructor; [lia | constructor] |].
      split; [intros i r Hi; simpl in Hi; lia |].
      split; [lia |]. split; [lia |].
      destruct line; [by right | left; simpl; lia].
Qed.

(** X12: the rows drawn for one line of the report lose nothing and fit:
    joined together they are the line; every row has at most 90 characters
    and every row but the last exactly 90; an empty line is one empty row;
    and no fewer rows would do. *)
Theorem wrap_line_rows (line : str) :
  let rows := wrap_line (length line) line in
  concat rows = line
  ∧ Forall (λ r, length r ≤ 90) rows
  ∧ (∀ i r, S i < length rows → rows !! i = Some r → length r = 90)
  ∧ (line = [] → rows = [[]])
  ∧ length line ≤ 90 * length rows
  ∧ (line ≠ [] → 90 * (length rows - 1) < length line).
Proof.
  intros rows. subst rows.
  destruct (wrap_line_spec (length line) line)
    as (Hcat & Hall & Hfull & Hpos & Hle & Hmin); [lia |].
  split; [done |]. split; [done |]. split; [done |].
  split; [by intros -> |]. split; [done |].
  intros Hne. by destruct Hmin.
Qed.

Lemma splitlines_from_spec n : ∀ text cur,
  length text ≤ n →
  Forall (λ c, is_linebreak c = false) cur →
  concat (splitlines_from cur text)
  = cur ++ List.filter (λ c, negb (is_linebreak c)) text
  ∧ Forall (Forall (λ c, is_linebreak c = false)) (splitlines_from cur text).
Proof.
  induction n as [|n IH]; intros text cur Hlen Hcur.
  - destruct text; [|simpl in Hlen; lia]. simpl. rewrite app_nil_r.
    destruct cur; simpl; [done |]. rewrite app_nil_r. split; [done |].
    by constructor.
  - destruct text as [|c rest].
    { simpl. rewrite app_nil_r. destruct cur; simpl; [done |].
      rewrite app_nil_r. split; [done |]. by constructor. }
    simpl in Hlen. cbn [splitlines_from List.filter].
    destruct (is_linebreak c) eqn:Hc; cbn [negb].
    + assert (Hrest : ∀ tail,
        (tail = rest
         ∨ ∃ c', rest = c' :: tail ∧ is_linebreak c' = true) →
        concat (cur :: splitlines_from [] tail)
        = cur ++ List.filter (λ c, negb (is_linebreak c)) rest
        ∧ Forall (Forall (λ c, is_linebreak c = false))
                 (cur :: splitlines_from [] tail)).
      { intros tail Htail.
        destruct (IH tail []) as [Hcat Hall]; [|done |].
        { destruct Htail as [->|(c' & -> & _)]; simpl in *; lia. }
        cbn [concat]. rewrite Hcat. simpl. split; [|by constructor].
        destruct Htail as [->|(c' & -> & Hc')]; [done |].
        simpl. by rewrite Hc'. }
      destruct rest as [|c' rest']; [apply Hrest; by left |].
      destruct ((c =? 13) && (c' =? 10))%N eqn:Hcrlf.
      * apply Hrest. right. exists c'. split; [done |].
        apply andb_prop in Hcrlf as [_ Hc'].
        apply N.eqb_eq in Hc'. by subst c'.
      * apply Hrest. by left.
    + destruct (IH rest (cur ++ [c])) as [Hcat Hall]; [lia | |].
      { apply Forall_app. split; [done |]. by repeat constructor. }
      split; [|done]. rewrite Hcat. by rewrite <- app_assoc.
Qed.

(** X13: the rows drawn for a whole report text: every row has at most 90
    characters, no row holds a line boundary, and the rows joined together
    are the text without its line boundaries: no other character is lost,
    repeated or moved. *)
Theorem report_rows_text (report_text : str) :
  Forall (λ r, length r ≤ 90) (report_rows report_text)
  ∧ Forall (Forall (λ c, is_linebreak c = false)) (report_rows report_text)
  ∧ concat (report_rows report_text)
    = List.filter (λ c, negb (is_linebreak c)) report_text.
Proof.
  unfold report_rows, splitlines.
  destruct (splitlines_from_spec (length report_text) report_text [])
    as [Hcat Hclean]; [lia | constructor |].
  simpl in Hcat. rewrite <- Hcat. clear Hcat.
  induction (splitlines_from [] report_text) as [|line lines IH]; simpl.
  - by repeat split.
  - apply Forall_cons in Hclean as [Hline Hclean].
    destruct (IH Hclean) as (IH1 & IH2 & IH3).
    destruct (wrap_line_spec (length line) line) as (Hcat & Hall & _); [lia |].
    split; [by apply Forall_app |]. split.
    + apply Forall_app. split; [|done].
      rewrite <- Hcat in Hline. by apply Forall_concat in Hline.
    + by rewrite concat_app, Hcat, IH3.
Qed.

(** ** What the write-through stores *)

(** X14: a text that [cached_ask] stores and returns after a pipeline run
    never begins or ends with a white-space character, whatever the model
    answered; both tiers hold exactly that stripped text. *)
Theorem cached_answer_is_stripped (env : Env) (q result : str) (w : World)
    (v : str) (w' : World) :
  cached_ask_resume env q result w = (Ok v, w') →
  (∀ c r, v = c :: r → isspace c = false)
  ∧ (∀ r c, v = r ++ [c] → isspace c = false)
  ∧ L1.get_from_l1 (l1 w') q = Some v
  ∧ l2 w' !! q = Some v.
Proof.
  intros Hres. apply resume_ok_inv in Hres as (-> & Hl1 & Hl2 & _).
  destruct (strip_ends result) as [Hfirst Hlast]. by repeat split.
Qed.

Lemma cached_answer_is_stripped_witness :
  let result := [32; 10]%N ++ py "Risk: High" ++ [32; 160; 10]%N in
  let after := cached_ask_resume Demo.env_ok Demo.q result Demo.w_empty in
  (∀ c r, py "Risk: High" = c :: r → isspace c = false)
  ∧ (∀ r c, py "Risk: High" = r ++ [c] → isspace c = false)
  ∧ L1.get_from_l1 (l1 after.2) Demo.q = Some (py "Risk: High")
  ∧ l2 after.2 !! Demo.q = Some (py "Risk: High").
Proof.
  intros result after.
  apply (cached_answer_is_stripped Demo.env_ok Demo.q result Demo.w_empty).
  vm_compute. reflexivity.
Defined.

(** ** The search for [documents] in the metadata *)

Lemma find_docs_tuple_cons v items :
  find_docs (PTuple (v :: items))
  = if truthy_found (find_docs v) then find_docs v
    else find_docs (PTuple items).
Proof. done. Qed.

Lemma find_docs_dict_cons k v entries :
  find_docs (PDict ((k, v) :: entries))
  = if truthy_found (find_docs v) then find_docs v
    else find_docs (PDict entries).
Proof. done. Qed.

Lemma truthy_found_list found :
  truthy_found found = true → ∃ x items, found = PList (x :: items).
Proof. destruct found as [| [|x items] | | | |]; try done. by eexists _, _. Qed.

(** What [find_docs] returns is [None] or a list of strings. *)
Lemma find_docs_sound obj :
  find_docs obj = PNone
  ∨ ∃ items, find_docs obj = PList items ∧ forallb is_str items = true.
Proof.
  induction obj as [s|items IH|items IH|entries IH| |] using PyObj_ind;
    try by left.
  - simpl. destruct (forallb is_str items) eqn:Hall; [right | by left].
    by exists items.
  - induction IH as [|v items Hv _ IH']; [by left |].
    rewrite find_docs_tuple_cons.
    by destruct (truthy_found (find_docs v)).
  - induction IH as [|[k v] entries Hv _ IH']; [by left |].
    rewrite find_docs_dict_cons.
    by destruct (truthy_found (find_docs v)).
Qed.

(** [find_docs] finds a list exactly when there is one to find. *)
Lemma find_docs_complete obj :
  truthy_found (find_docs obj) = true ↔ has_docs obj.
Proof.
  induction obj as [s|items IH|items IH|entries IH| |] using PyObj_ind;
    try (split; [done | by inversion 1]).
  - simpl. destruct (forallb is_str items) eqn:Hall.
    + destruct items as [|x items]; simpl.
      * split; [done | by inversion 1].
      * split; [intros _; by constructor | done].
    + split; [done | inversion 1; congruence].
  - induction IH as [|v items Hv _ IH'].
    { split; [done |]. inversion 1 as [|? v Hin|]; subst.
      by apply elem_of_nil in Hin. }
    rewrite find_docs_tuple_cons.
    destruct (truthy_found (find_docs v)) eqn:Hfound.
    + split; [|done]. intros _.
      apply (has_docs_tuple _ v); [left | by apply Hv].
    + rewrite IH'. split.
      * inversion 1 as [|? v' Hin Hdocs|]; subst.
        apply (has_docs_tuple _ v'); [by right | done].
      * inversion 1 as [|? v' Hin Hdocs|]; subst.
        apply elem_of_cons in Hin as [->|Hin].
        -- apply Hv in Hdocs. congruence.
        -- by apply (has_docs_tuple _ v').
  - induction IH as [|[k v] entries Hv _ IH'].
    { split; [done |]. inversion 1 as [| |? k v Hin]; subst.
      by apply elem_of_nil in Hin. }
    rewrite find_docs_dict_cons. simpl in Hv.
    destruct (truthy_found (find_docs v)) eqn:Hfound.
    + split; [|done]. intros _.
      apply (has_docs_dict _ k v); [left | by apply Hv].
    + rewrite IH'. split.
      * inversion 1 as [| |? k' v' Hin Hdocs]; subst.
        apply (has_docs_dict _ k' v'); [by right | done].
      * inversion 1 as [| |? k' v' Hin Hdocs]; subst.
        apply elem_of_cons in Hin as [[= -> ->]|Hin].
        -- apply Hv in Hdocs. congruence.
        -- by apply (has_docs_dict _ k' v').
Qed.

(** X15: [find_docs] returns [None] or a list all of whose items are
    strings, and it returns a non-empty one exactly when a non-empty list
    of strings can be reached through tuple items and dict values; it never
    looks inside a list, so a list of strings nested in another list is not
    found. *)
Theorem find_docs_finds (obj : PyObj) :
  (find_docs obj = PNone
   ∨ ∃ items, find_docs obj = PList items ∧ forallb is_str items = true)
  ∧ (truthy_found (find_docs obj) = true ↔ has_docs obj)
  ∧ (∀ items, obj = PList items → forallb is_str items = false →
       find_docs obj = PNone).
Proof.
  split; [apply find_docs_sound |]. split; [apply find_docs_complete |].
  intros items -> Hno. simpl. by rewrite Hno.
Qed.

(** Outside a list the deep search finds a non-empty list or nothing. *)
Lemma find_docs_truthy obj :
  (∀ items, obj ≠ PList items) →
  find_docs obj = PNone ∨ truthy_found (find_docs obj) = true.
Proof.
  destruct obj as [s|items|items|entries| |sized]; intros Hnl;
    try by left.
  - by destruct (Hnl items).
  - induction items as [|v items IH]; [by left |].
    rewrite find_docs_tuple_cons.
    destruct (truthy_found (find_docs v)) eqn:Hv; [by right |].
    apply IH. by intros items'.
  - induction entries as [|[k v] entries IH]; [by left |].
    rewrite find_docs_dict_cons.
    destruct (truthy_found (find_docs v)) eqn:Hv; [by right |].
    apply IH. by intros items'.
Qed.

Lemma load_documents_eq meta :
  load_documents meta
  = if has_len (located meta) then Some (located meta) else None.
Proof. unfold load_documents. by destruct (located meta). Qed.

(** The metadata [{"documents": 5, "x": ["a"]}]: a list of strings can be
    reached, but step 3 takes the number, and the import fails at
    [len(documents)]. *)
Example load_documents_number :
  let meta := PDict [(PStr (py "documents"), POther false);
                     (PStr (py "x"), PList [PStr (py "a")])] in
  has_docs meta ∧ located meta = POther false ∧ load_documents meta = None.
Proof.
  split; [|by vm_compute].
  apply (has_docs_dict _ (PStr (py "x")) (PList [PStr (py "a")])).
  - right. left.
  - by constructor.
Qed.

(** X16: the loader of [documents], to the end of the import.  A list at
    the top of the metadata is taken as it is.  What is loaded is what
    steps 1 to 4 have located, and it has a length; the import fails with
    a [TypeError] exactly when what they have located has none ([None]
    included).  When steps 1 to 3 find nothing, the import succeeds
    exactly when a non-empty list of strings can be reached through tuples
    and dicts, and then loads such a list; when they find an object of
    another kind, that object decides, whatever list can be reached. *)
Theorem load_documents_outcome (meta : PyObj) :
  (∀ items, meta = PList items → load_documents meta = Some meta)
  ∧ (∀ d, load_documents meta = Some d →
       d = located meta ∧ d ≠ PNone ∧ has_len d = true)
  ∧ (load_documents meta = None ↔ has_len (located meta) = false)
  ∧ (direct_documents meta = PNone →
     (has_docs meta ↔ is_Some (load_documents meta))
     ∧ ∀ d, load_documents meta = Some d →
            ∃ x items, d = PList (x :: items)
                       ∧ forallb is_str (x :: items) = true)
  ∧ (∀ sized, direct_documents meta = POther sized →
       load_documents meta = if sized then Some (POther sized) else None).
Proof.
  rewrite load_documents_eq.
  split; [by intros items -> |]. split; [|split; [|split]].
  - intros d. destruct (has_len (located meta)) eqn:Hlen; [|done].
    intros [= <-]. split; [done |]. split; [|done]. by intros Heq; rewrite Heq in Hlen.
  - by destruct (has_len (located meta)).
  - intros Hdirect.
    assert (Hloc : located meta = find_docs meta)
      by (unfold located; by rewrite Hdirect).
    assert (Hnl : ∀ items, meta ≠ PList items) by by intros items ->.
    rewrite Hloc. rewrite <- find_docs_complete.
    destruct (find_docs_truthy meta Hnl) as [Hnone|Htruthy].
    + rewrite Hnone. simpl. split; [split; [done | by intros []] | done].
    + pose proof Htruthy as Hlist.
      apply truthy_found_list in Hlist as (x & items & Hfound).
      rewrite Hfound. simpl. split; [split; [by eexists | done] |].
      intros d [= <-]. exists x, items. split; [done |].
      destruct (find_docs_sound meta) as [Hn|(items' & Hf & Hall)];
        [congruence |].
      rewrite Hfound in Hf. by injection Hf as <-.
  - intros sized Hdirect. unfold located. rewrite Hdirect. by destruct sized.
Qed.

(** ** The hits of a search *)

Lemma mapM_ok_inv {A B} (f : A → Result B) l bs :
  mapM f l = Ok bs → Forall2 (λ a b, f a = Ok b) l bs.
Proof.
  revert bs. induction l as [|a l IH]; intros bs; simpl.
  - intros [= <-]. constructor.
  - destruct (f a) as [b|e|] eqn:Hfa; [|done..].
    destruct (mapM f l) as [bs'|e|]; [|done..].
    intros [= <-]. constructor; [done | by apply IH].
Qed.

Lemma mapM_total {A B} (f : A → Result B) l :
  Forall (λ a, ∃ b, f a = Ok b) l → ∃ bs, mapM f l = Ok bs.
Proof.
  induction 1 as [|a l [b Hb] _ [bs IH]]; simpl; [by eexists |].
  rewrite Hb, IH. by eexists.
Qed.

Lemma mapM_raise {A B} (f : A → Result B) (Q : exn → Prop) l :
  (∀ a, f a ≠ Never) →
  (∀ a e, f a = Raise e → Q e) →
  Exists (λ a, ∃ e, f a = Raise e) l →
  ∃ e, mapM f l = Raise e ∧ Q e.
Proof.
  intros Hret HQ. induction 1 as [a l [e He]|a l _ [e [IH HQe]]]; simpl.
  - rewrite He. exists e. split; [done | by eapply HQ].
  - destruct (f a) as [b|e'|] eqn:Hfa.
    + rewrite IH. by exists e.
    + exists e'. split; [done | by eapply HQ].
    + by destruct (Hret a).
Qed.

Lemma py_index_returns {A} (l : list A) (i : Z) : py_index l i ≠ Never.
Proof.
  unfold py_index. destruct (_ || _)%bool; [done |]. by destruct (l !! _).
Qed.

(** [l[i]] for a Python integer: inside [-len, len) the item counted from
    the front or, for a negative index, from the end; [IndexError]
    outside. *)
Lemma py_index_spec {A} (l : list A) (i : Z) :
  let n := Z.of_nat (length l) in
  ((-n ≤ i < n)%Z →
   ∃ a, py_index l i = Ok a
        ∧ l !! Z.to_nat (if (i <? 0)%Z then i + n else i)%Z = Some a)
  ∧ (¬ (-n ≤ i < n)%Z →
     ∃ e, py_index l i = Raise e ∧ exn_kind e = IndexError).
Proof.
  intros n. unfold py_index. fold n.
  set (j := (if (i <? 0)%Z then (i + n)%Z else i)).
  assert (Hj : ((-n ≤ i < n) ↔ (0 ≤ j < n))%Z).
  { subst j. destruct (i <? 0)%Z eqn:Hneg;
      [apply Z.ltb_lt in Hneg | apply Z.ltb_ge in Hneg]; lia. }
  split.
  - intros Hin. apply Hj in Hin.
    assert (((j <? 0) || (n <=? j))%Z = false) as ->.
    { apply orb_false_intro; [apply Z.ltb_ge | apply Z.leb_gt]; lia. }
    destruct (l !! Z.to_nat j) as [a|] eqn:Hl; [by exists a |].
    apply lookup_ge_None in Hl. subst n. lia.
  - intros Hout.
    assert (((j <? 0) || (n <=? j))%Z = true) as ->.
    { destruct (j <? 0)%Z eqn:Hneg; [done |]. apply Z.ltb_ge in Hneg.
      apply Z.leb_le. lia. }
    by eexists.
Qed.

(** X17: the hits of [search_faiss]: the [-1] paddings of the index are
    dropped; when every other index lies in [-len, len) of [documents]
    there is one hit per such index, in order, each the document at that
    position (counted from the end for a negative index); when one of them
    lies outside, the search raises [IndexError]. *)
Theorem hits_of_indices (env : Env) (t : list Event) (q : str)
    (indices : list Z) :
  faiss_search env t q = Ok indices →
  let n := Z.of_nat (length (documents env)) in
  let wanted := List.filter (λ i, negb (i =? -1)%Z) indices in
  (Forall (λ i, (-n ≤ i < n)%Z) wanted →
   ∃ docs, hits env t q = Ok docs
           ∧ Forall2 (λ i d,
                documents env !! Z.to_nat (if (i <? 0)%Z then i + n else i)%Z
                = Some d) wanted docs)
  ∧ (Exists (λ i, ¬ (-n ≤ i < n)%Z) wanted →
     ∃ e, hits env t q = Raise e ∧ exn_kind e = IndexError)
  ∧ Forall (λ i, i ≠ (-1)%Z) wanted.
Proof.
  intros Hsearch n wanted. unfold hits. rewrite Hsearch. fold wanted.
  split; [|split].
  - intros Hin.
    destruct (mapM_total (py_index (documents env)) wanted) as [docs Hdocs].
    { eapply Forall_impl; [exact Hin |]. intros i Hi. simpl in Hi.
      destruct (py_index_spec (documents env) i) as [Hok _].
      destruct (Hok Hi) as (a & Ha & _). by exists a. }
    exists docs. split; [done |].
    apply mapM_ok_inv in Hdocs.
    assert (Hboth : Forall2 (λ i d, (-n ≤ i < n)%Z
                                     ∧ py_index (documents env) i = Ok d)
                            wanted docs).
    { clear -Hin Hdocs. induction Hdocs; [constructor |].
      apply Forall_cons in Hin as [? ?]. constructor; [done | auto]. }
    eapply Forall2_impl; [exact Hboth |]. intros i d [Hi Hd]. simpl.
    destruct (py_index_spec (documents env) i) as [Hok _].
    destruct (Hok Hi) as (a & Ha & Hl). fold n in Hl. congruence.
  - intros Hout. apply mapM_raise.
    + apply py_index_returns.
    + intros i e He.
      destruct (decide (-n ≤ i < n)%Z) as [Hi|Hi].
      * destruct (py_index_spec (documents env) i) as [Hok _].
        destruct (Hok Hi) as (a & Ha & _). congruence.
      * destruct (py_index_spec (documents env) i) as [_ Hbad].
        destruct (Hbad Hi) as (e' & He' & Hkind). congruence.
    + eapply Exists_impl; [exact Hout |]. intros i Hi. simpl in Hi.
      destruct (py_index_spec (documents env) i) as [_ Hbad].
      destruct (Hbad Hi) as (e & He & _). by exists e.
  - subst wanted. apply Forall_forall. intros i Hi.
    apply list_elem_of_In, List.filter_In in Hi as [_ Hi].
    apply negb_true_iff, Z.eqb_neq in Hi. done.
Qed.

Lemma hits_of_indices_witness :
  ∃ docs, hits Demo.env_ok [] Demo.q = Ok docs
          ∧ Forall2 (λ i d,
               documents Demo.env_ok
                 !! Z.to_nat (if (i <? 0)%Z
                              then i + Z.of_nat (length (documents Demo.env_ok))
                              else i)%Z
               = Some d)
              (List.filter (λ i, negb (i =? -1)%Z)
                 [0%Z; 1%Z; (-1)%Z; (-1)%Z; (-1)%Z]) docs.
Proof.
  apply (hits_of_indices Demo.env_ok [] Demo.q
           [0%Z; 1%Z; (-1)%Z; (-1)%Z; (-1)%Z]); [reflexivity |].
  simpl. repeat constructor; lia.
Defined.

(** ** The pipeline and its two capabilities *)

(** X18: [ask] calls the retrieval capability exactly once and touches no
    cache tier; when the retrieval gives its hits, even none, it calls the
    generation capability exactly once, with the prompt built from the
    query and the hits, and returns or raises what that call does; when the
    retrieval raises, [ask] raises the same and the model is not called. *)
Theorem ask_calls_capabilities (env : Env) (q : str) (w : World)
    (r : Result str) (w1 : World) :
  ask env q w = (r, w1) →
  l1 w1 = l1 w ∧ l2 w1 = l2 w
  ∧ count is_search (trace w1) = count is_search (trace w) + 1
  ∧ (∀ docs, hits env (trace w) q = Ok docs →
       count is_generate (trace w1) = count is_generate (trace w) + 1
       ∧ r = generate_content env (trace w ++ [EvSearch q]) (rag_prompt q docs)
       ∧ trace w1 = trace w ++ [EvSearch q; EvGenerate (rag_prompt q docs)])
  ∧ (∀ e, hits env (trace w) q = Raise e →
       count is_generate (trace w1) = count is_generate (trace w)
       ∧ r = Raise e).
Proof.
  intros Hask.
  pose proof (ask_effect env q w r w1 Hask) as (A1 & A2 & As & Ag).
  split; [done |]. split; [done |]. split; [done |].
  split.
  - intros docs Hdocs. rewrite Hdocs in Ag. destruct Ag as [Ag Hr].
    split; [done |]. split; [done |].
    unfold ask, bind in Hask. rewrite search_faiss_eq, Hdocs in Hask.
    rewrite generate_answer_eq in Hask. injection Hask as _ <-.
    cbn [trace]. by rewrite <- app_assoc.
  - intros e He. by rewrite He in Ag.
Qed.

Lemma ask_calls_capabilities_witness :
  let after := ask Demo.env_gen_down Demo.q Demo.w_empty in
  l1 after.2 = l1 Demo.w_empty ∧ l2 after.2 = l2 Demo.w_empty
  ∧ count is_search (trace after.2) = count is_search (trace Demo.w_empty) + 1
  ∧ (∀ docs, hits Demo.env_gen_down (trace Demo.w_empty) Demo.q = Ok docs →
       count is_generate (trace after.2)
       = count is_generate (trace Demo.w_empty) + 1
       ∧ after.1 = generate_content Demo.env_gen_down
                     (trace Demo.w_empty ++ [EvSearch Demo.q])
                     (rag_prompt Demo.q docs)
       ∧ trace after.2
         = trace Demo.w_empty
           ++ [EvSearch Demo.q; EvGenerate (rag_prompt Demo.q docs)])
  ∧ (∀ e, hits Demo.env_gen_down (trace Demo.w_empty) Demo.q = Raise e →
       count is_generate (trace after.2)
       = count is_generate (trace Demo.w_empty)
       ∧ after.1 = Raise e).
Proof.
  apply (ask_calls_capabilities Demo.env_gen_down Demo.q Demo.w_empty).
  apply surjective_pairing.
Defined.
